(** * Shallow embedding of turbo/shards/state_cache.go

    The LRU state cache of turbo-geth: three kinds of cache items kept in
    two B-trees ([readWrites], [writes]) and in two binary heaps that share
    one backing slice ([readQueue] grows from the left, [writeQueue] from
    the right).

    Memory model.  Cache items are Go pointers ([&aci], [&sci], [&cci]);
    they are modelled as indices into an explicit [store] so that the
    aliasing between the B-trees, the heap slice and the item's own
    [queuePos] field is kept.  The shared slice [heapItems] is one list of
    [option ptr] ([None] is a nil interface value).  A Go panic (explicit
    [panic], nil method call, index out of range) is [None] in the
    state/error monad [M]. *)

From Stdlib Require Import ZArith List Bool Lia Strings.Byte.
Import ListNotations.

Open Scope Z_scope.

(** ** Flags *)

Definition ModifiedFlag : Z := 1.
Definition DeletedFlag : Z := 2.

(** ** Byte arrays

    [common.Address] is a 20-byte array and [common.Hash] a 32-byte array;
    [copy(dst[:], src)] copies [min(len dst, len src)] bytes. *)

Definition bytes := list Byte.byte.

Definition go_copy (dst src : bytes) : bytes :=
  firstn (length dst) src ++ skipn (length src) dst.

Definition zeroAddress : bytes := repeat Byte.x00 20.
Definition zeroHash : bytes := repeat Byte.x00 32.

(** [bytes.Compare]: lexicographic, a proper prefix sorts first. *)
Fixpoint bytes_Compare (a b : bytes) : comparison :=
  match a, b with
  | [], [] => Eq
  | [], _ :: _ => Lt
  | _ :: _, [] => Gt
  | x :: a', y :: b' =>
      match N.compare (Byte.to_N x) (Byte.to_N y) with
      | Eq => bytes_Compare a' b'
      | c => c
      end
  end.

(** ** accounts.Account

    Modelled from the spec: [accounts.Account] (core/types/accounts, not
    under src/) is an opaque value type with a copy hook ([Copy]) and a
    reset to the empty account ([Reset]). *)

Record Account := mkAccount {
  Nonce : N;
  Balance : N;
  Incarnation : N
}.

Definition emptyAccount : Account := mkAccount 0 0 0.

(** ** Cache items

    The three Go structs [AccountCacheItem], [StorageCacheItem] and
    [CodeCacheItem] share the fields [sequence], [queuePos] and [flags];
    their own fields are the [ItemBody].  [code] is a Go slice: [None] is
    the nil slice. *)

Inductive ItemBody :=
| AccountBody (address : bytes) (account : Account)
| StorageBody (address : bytes) (incarnation : N) (location : bytes) (value : bytes)
| CodeBody (address : bytes) (code : option bytes).

Record CacheItem := mkItem {
  body : ItemBody;
  sequence : Z;
  queuePos : Z;
  flags : Z
}.

Definition ptr := nat.

(** ** Less (btree.Item) *)

Definition body_Less (a b : ItemBody) : bool :=
  match a, b with
  | AccountBody aa _, AccountBody ba _ =>
      match bytes_Compare aa ba with Lt => true | _ => false end
  | AccountBody aa _, StorageBody ba _ _ _ =>
      match bytes_Compare aa ba with Eq => true | Lt => true | Gt => false end
  | AccountBody aa _, CodeBody ba _ =>
      match bytes_Compare aa ba with Eq => true | Lt => true | Gt => false end
  | StorageBody aa _ _ _, AccountBody ba _ =>
      match bytes_Compare aa ba with Eq => false | Lt => true | Gt => false end
  | StorageBody aa ai al _, StorageBody ba bi bl _ =>
      match bytes_Compare aa ba with
      | Eq =>
          if N.eqb ai bi
          then match bytes_Compare al bl with Lt => true | _ => false end
          else N.ltb ai bi
      | Lt => true
      | Gt => false
      end
  | StorageBody aa _ _ _, CodeBody ba _ =>
      match bytes_Compare aa ba with Eq => false | Lt => true | Gt => false end
  | CodeBody aa _, AccountBody ba _ =>
      match bytes_Compare aa ba with Eq => false | Lt => true | Gt => false end
  | CodeBody aa _, StorageBody ba _ _ _ =>
      match bytes_Compare aa ba with Eq => true | Lt => true | Gt => false end
  | CodeBody aa _, CodeBody ba _ =>
      match bytes_Compare aa ba with Lt => true | _ => false end
  end.

Definition HasFlag (it : CacheItem) (flag : Z) : bool :=
  negb (Z.land (flags it) flag =? 0).

(** ** StateCache *)

Record StateCache := mkStateCache {
  store : list CacheItem;          (* the items the pointers refer to *)
  readWrites : list ptr;           (* B-tree, in order *)
  writes : list ptr;               (* B-tree, in order *)
  heapItems : list (option ptr);   (* readQueue.items == writeQueue.items *)
  readEnd : Z;                     (* readQueue.end *)
  writeStart : Z;                  (* writeQueue.start *)
  limitReads : Z;
  limitWrites : Z;
  scSequence : Z                   (* sc.sequence *)
}.

(** ** The state/panic monad *)

Definition M (A : Type) := StateCache -> option (A * StateCache).

Definition ret {A} (a : A) : M A := fun s => Some (a, s).
Definition bind {A B} (m : M A) (k : A -> M B) : M B :=
  fun s => match m s with None => None | Some (a, s') => k a s' end.
Definition panic {A} : M A := fun _ => None.
Definition getS : M StateCache := fun s => Some (s, s).
Definition putS (s : StateCache) : M unit := fun _ => Some (tt, s).
Definition lift {A} (o : option A) : M A :=
  fun s => match o with None => None | Some a => Some (a, s) end.

Notation "x <- m ;; k" := (bind m (fun x => k))
  (at level 61, m at next level, right associativity).
Notation "m ;;; k" := (bind m (fun _ => k))
  (at level 61, right associativity).

Definition with_store (s : StateCache) (st : list CacheItem) : StateCache :=
  mkStateCache st (readWrites s) (writes s) (heapItems s) (readEnd s)
    (writeStart s) (limitReads s) (limitWrites s) (scSequence s).
Definition with_readWrites (s : StateCache) (t : list ptr) : StateCache :=
  mkStateCache (store s) t (writes s) (heapItems s) (readEnd s)
    (writeStart s) (limitReads s) (limitWrites s) (scSequence s).
Definition with_writes (s : StateCache) (t : list ptr) : StateCache :=
  mkStateCache (store s) (readWrites s) t (heapItems s) (readEnd s)
    (writeStart s) (limitReads s) (limitWrites s) (scSequence s).
Definition with_heapItems (s : StateCache) (h : list (option ptr)) : StateCache :=
  mkStateCache (store s) (readWrites s) (writes s) h (readEnd s)
    (writeStart s) (limitReads s) (limitWrites s) (scSequence s).
Definition with_readEnd (s : StateCache) (e : Z) : StateCache :=
  mkStateCache (store s) (readWrites s) (writes s) (heapItems s) e
    (writeStart s) (limitReads s) (limitWrites s) (scSequence s).
Definition with_writeStart (s : StateCache) (w : Z) : StateCache :=
  mkStateCache (store s) (readWrites s) (writes s) (heapItems s) (readEnd s)
    w (limitReads s) (limitWrites s) (scSequence s).
Definition with_scSequence (s : StateCache) (q : Z) : StateCache :=
  mkStateCache (store s) (readWrites s) (writes s) (heapItems s) (readEnd s)
    (writeStart s) (limitReads s) (limitWrites s) q.

(** *** Pointers *)

Definition deref (p : ptr) : M CacheItem :=
  s <- getS ;; lift (nth_error (store s) p).

Fixpoint replace_nth {A} (l : list A) (n : nat) (x : A) : list A :=
  match l, n with
  | [], _ => []
  | _ :: l', O => x :: l'
  | y :: l', S n' => y :: replace_nth l' n' x
  end.

Definition update (p : ptr) (f : CacheItem -> CacheItem) : M unit :=
  it <- deref p ;;
  s <- getS ;; putS (with_store s (replace_nth (store s) p (f it))).

(** [new(T)] / a local variable whose address escapes. *)
Definition alloc (it : CacheItem) : M ptr :=
  s <- getS ;;
  putS (with_store s (store s ++ [it])) ;;; ret (length (store s)).

Definition SetSequence (p : ptr) (q : Z) : M unit :=
  update p (fun it => mkItem (body it) q (queuePos it) (flags it)).
Definition SetQueuePos (p : ptr) (pos : Z) : M unit :=
  update p (fun it => mkItem (body it) (sequence it) pos (flags it)).
(** [existing.flags = f] *)
Definition SetFlagsTo (p : ptr) (f : Z) : M unit :=
  update p (fun it => mkItem (body it) (sequence it) (queuePos it) f).
(** [ClearFlags]: [flags &^= f] *)
Definition ClearFlags (p : ptr) (f : Z) : M unit :=
  update p (fun it => mkItem (body it) (sequence it) (queuePos it)
                        (Z.land (flags it) (Z.lnot f))).
(** [SetFlags]: [flags |= f] (methods of all three item types; not called
    by the cache itself). *)
Definition SetFlags (p : ptr) (f : Z) : M unit :=
  update p (fun it => mkItem (body it) (sequence it) (queuePos it) (Z.lor (flags it) f)).
Definition SetBody (p : ptr) (b : ItemBody) : M unit :=
  update p (fun it => mkItem b (sequence it) (queuePos it) (flags it)).
Definition GetSequence (p : ptr) : M Z := it <- deref p ;; ret (sequence it).
Definition GetQueuePos (p : ptr) : M Z := it <- deref p ;; ret (queuePos it).

(** Method call on an interface value read out of the heap slice: a nil
    interface value panics. *)
Definition nonnil (o : option ptr) : M ptr := lift o.

(** *** Slice indexing: out of range panics *)

Definition slice_get {A} (l : list A) (i : Z) : M A :=
  if i <? 0 then panic else lift (nth_error l (Z.to_nat i)).

Definition slice_set {A} (l : list A) (i : Z) (x : A) : M (list A) :=
  if (i <? 0) || (Z.of_nat (length l) <=? i) then panic
  else ret (replace_nth l (Z.to_nat i) x).

Definition heap_get (i : Z) : M (option ptr) :=
  s <- getS ;; slice_get (heapItems s) i.
Definition heap_set (i : Z) (x : option ptr) : M unit :=
  s <- getS ;; h <- slice_set (heapItems s) i x ;;
  putS (with_heapItems s h).

(** ** The two heaps (ReadHeap, WriteHeap) and container/heap *)

(** heap.Interface: the methods container/heap calls. *)
Record HeapInterface := {
  hLen : M Z;
  hLess : Z -> Z -> M bool;
  hSwap : Z -> Z -> M unit;
  hPush : ptr -> M unit;
  hPop : M (option ptr)
}.

(** ReadHeap: [items[0..end)] *)
Definition ReadHeap_Len : M Z := s <- getS ;; ret (readEnd s).

Definition ReadHeap_Less (i j : Z) : M bool :=
  a <- heap_get i ;; pa <- nonnil a ;; sa <- GetSequence pa ;;
  b <- heap_get j ;; pb <- nonnil b ;; sb <- GetSequence pb ;;
  ret (sa <? sb).

Definition ReadHeap_Swap (i j : Z) : M unit :=
  a <- heap_get i ;; pa <- nonnil a ;; SetQueuePos pa j ;;;
  b <- heap_get j ;; pb <- nonnil b ;; SetQueuePos pb i ;;;
  xi <- heap_get i ;; xj <- heap_get j ;;
  heap_set i xj ;;; heap_set j xi.

Definition ReadHeap_Push (x : ptr) : M unit :=
  s <- getS ;; heap_set (readEnd s) (Some x) ;;;
  s' <- getS ;; putS (with_readEnd s' (readEnd s' + 1)).

Definition ReadHeap_Pop : M (option ptr) :=
  s <- getS ;; putS (with_readEnd s (readEnd s - 1)) ;;;
  s' <- getS ;; heap_get (readEnd s').

Definition readQueue : HeapInterface :=
  {| hLen := ReadHeap_Len; hLess := ReadHeap_Less; hSwap := ReadHeap_Swap;
     hPush := ReadHeap_Push; hPop := ReadHeap_Pop |}.

(** WriteHeap: [items[start..len)], heap index [i] at array index
    [len(items) - 1 - i]. *)
Definition heapLen (s : StateCache) : Z := Z.of_nat (length (heapItems s)).

Definition WriteHeap_Len : M Z := s <- getS ;; ret (heapLen s - writeStart s).

Definition WriteHeap_Less (i j : Z) : M bool :=
  s <- getS ;; let l := heapLen s - 1 in
  a <- heap_get (l - i) ;; pa <- nonnil a ;; sa <- GetSequence pa ;;
  b <- heap_get (l - j) ;; pb <- nonnil b ;; sb <- GetSequence pb ;;
  ret (sa <? sb).

(** As written in the source: the queue positions are set on
    [wh.items[i]] and [wh.items[j]] before [i] and [j] are reflected. *)
Definition WriteHeap_Swap (i j : Z) : M unit :=
  a <- heap_get i ;; pa <- nonnil a ;; SetQueuePos pa j ;;;
  b <- heap_get j ;; pb <- nonnil b ;; SetQueuePos pb i ;;;
  s <- getS ;; let l := heapLen s - 1 in
  let i' := l - i in let j' := l - j in
  xi <- heap_get i' ;; xj <- heap_get j' ;;
  heap_set i' xj ;;; heap_set j' xi.

Definition WriteHeap_Push (x : ptr) : M unit :=
  s <- getS ;; putS (with_writeStart s (writeStart s - 1)) ;;;
  s' <- getS ;; heap_set (writeStart s') (Some x).

Definition WriteHeap_Pop : M (option ptr) :=
  s <- getS ;; putS (with_writeStart s (writeStart s + 1)) ;;;
  s' <- getS ;; heap_get (writeStart s' - 1).

Definition writeQueue : HeapInterface :=
  {| hLen := WriteHeap_Len; hLess := WriteHeap_Less; hSwap := WriteHeap_Swap;
     hPush := WriteHeap_Push; hPop := WriteHeap_Pop |}.

(** container/heap.  The loops of [up] and [down] run at most [j + 1]
    resp. [n + 1] times (the index strictly decreases towards 0 resp.
    strictly increases below [n]); that bound is the fuel. *)

Fixpoint up_loop (h : HeapInterface) (fuel : nat) (j : Z) : M unit :=
  match fuel with
  | O => ret tt
  | S f =>
      let i := Z.quot (j - 1) 2 in
      if i =? j then ret tt else
      lt <- hLess h j i ;;
      if negb lt then ret tt else
      hSwap h i j ;;; up_loop h f i
  end.

Definition up (h : HeapInterface) (j : Z) : M unit :=
  up_loop h (S (Z.to_nat j)) j.

Fixpoint down_loop (h : HeapInterface) (fuel : nat) (i n : Z) : M Z :=
  match fuel with
  | O => ret i
  | S f =>
      let j1 := 2 * i + 1 in
      if (n <=? j1) || (j1 <? 0) then ret i else
      j <- (let j2 := j1 + 1 in
            if j2 <? n then (lt <- hLess h j2 j1 ;; ret (if lt then j2 else j1))
            else ret j1) ;;
      lt <- hLess h j i ;;
      if negb lt then ret i else
      hSwap h i j ;;; down_loop h f j n
  end.

Definition down (h : HeapInterface) (i0 n : Z) : M bool :=
  i <- down_loop h (S (Z.to_nat n)) i0 n ;; ret (i0 <? i).

Fixpoint init_loop (h : HeapInterface) (k : nat) (n : Z) : M unit :=
  match k with
  | O => ret tt
  | S k' => down h (Z.of_nat k') n ;;; init_loop h k' n
  end.

Definition heap_Init (h : HeapInterface) : M unit :=
  n <- hLen h ;; init_loop h (Z.to_nat (Z.quot n 2)) n.

Definition heap_Push (h : HeapInterface) (x : ptr) : M unit :=
  hPush h x ;;; n <- hLen h ;; up h (n - 1).

Definition heap_Pop (h : HeapInterface) : M (option ptr) :=
  n0 <- hLen h ;; let n := n0 - 1 in
  hSwap h 0 n ;;; down h 0 n ;;; hPop h.

Definition heap_Remove (h : HeapInterface) (i : Z) : M (option ptr) :=
  n0 <- hLen h ;; let n := n0 - 1 in
  (if negb (n =? i)
   then hSwap h i n ;;; moved <- down h i n ;;
        if negb moved then up h i else ret tt
   else ret tt) ;;;
  hPop h.

Definition heap_Fix (h : HeapInterface) (i : Z) : M unit :=
  n <- hLen h ;; moved <- down h i n ;;
  if negb moved then up h i else ret tt.

(** ** google/btree

    The tree content in order, as a list of item pointers.  Items are
    compared with [Less] only: an item is found when neither sorts before
    the other. *)

Definition equiv_key (a b : ItemBody) : bool :=
  negb (body_Less a b) && negb (body_Less b a).

Fixpoint bt_find (st : list CacheItem) (t : list ptr) (k : ItemBody)
  : option (option ptr) :=
  match t with
  | [] => Some None
  | q :: t' =>
      match nth_error st q with
      | None => None
      | Some it => if equiv_key k (body it) then Some (Some q) else bt_find st t' k
      end
  end.

Fixpoint bt_insert (st : list CacheItem) (t : list ptr) (p : ptr) (k : ItemBody)
  : option (list ptr) :=
  match t with
  | [] => Some [p]
  | q :: t' =>
      match nth_error st q with
      | None => None
      | Some it =>
          if body_Less k (body it) then Some (p :: t)
          else if body_Less (body it) k
          then option_map (cons q) (bt_insert st t' p k)
          else Some (p :: t')
      end
  end.

Fixpoint bt_remove (st : list CacheItem) (t : list ptr) (k : ItemBody)
  : option (list ptr) :=
  match t with
  | [] => Some []
  | q :: t' =>
      match nth_error st q with
      | None => None
      | Some it =>
          if equiv_key k (body it) then Some t'
          else option_map (cons q) (bt_remove st t' k)
      end
  end.

(** Which of the two trees of the StateCache. *)
Record TreeRef := {
  tget : StateCache -> list ptr;
  tset : StateCache -> list ptr -> StateCache
}.

Definition readWritesTree : TreeRef := {| tget := readWrites; tset := with_readWrites |}.
Definition writesTree : TreeRef := {| tget := writes; tset := with_writes |}.

(** [Get(key)] with a key-only stub item. *)
Definition BTree_Get (t : TreeRef) (key : ItemBody) : M (option ptr) :=
  s <- getS ;; lift (bt_find (store s) (tget t s) key).

Definition BTree_ReplaceOrInsert (t : TreeRef) (p : ptr) : M unit :=
  it <- deref p ;; s <- getS ;;
  t' <- lift (bt_insert (store s) (tget t s) p (body it)) ;;
  putS (tset t s t').

(** [Delete(item)]: an empty tree returns at once; otherwise the argument's
    [Less] is called, which panics on a nil item. *)
Definition BTree_Delete (t : TreeRef) (item : option ptr) : M unit :=
  s <- getS ;;
  match tget t s with
  | [] => ret tt
  | _ :: _ =>
      p <- nonnil item ;; it <- deref p ;; s' <- getS ;;
      t' <- lift (bt_remove (store s') (tget t s') (body it)) ;;
      putS (tset t s' t')
  end.

(** ** StateCache operations *)

(** Go's [int] is 64 bits wide: its arithmetic wraps around modulo [2^64]. *)
Definition int64_wrap (z : Z) : Z := (z + 2^63) mod 2^64 - 2^63.

(** [make([]CacheItem, n)] panics ([panicmakeslicelen]) when [n < 0] or when
    [n] interface values of 16 bytes exceed [maxAlloc = 2^48] (64-bit Linux),
    that is when [n > 2^44]. *)
Definition maxCacheItemSliceLen : Z := 2^44.

(** [NewStateCache]: [btree.New(degree)] of google/btree panics ("bad
    degree") when [degree <= 1]; [limitReads+limitWrites] is a Go [int]
    sum; [make] panics on a length it cannot allocate. *)
Definition NewStateCache (degree limitReads limitWrites : Z) : option StateCache :=
  if degree <=? 1 then None else
  let n := int64_wrap (limitReads + limitWrites) in
  if (n <? 0) || (maxCacheItemSliceLen <? n) then None
  else Some (mkStateCache [] [] [] (repeat None (Z.to_nat n)) 0 n
               limitReads limitWrites 0).

Definition curSequence : M Z := s <- getS ;; ret (scSequence s).
(** [sc.sequence++] on a Go [int]. *)
Definition incSequence : M unit :=
  s <- getS ;; putS (with_scSequence s (int64_wrap (scSequence s + 1))).

(** [existing.sequence = sc.sequence; sc.sequence++] *)
Definition bumpSequence (p : ptr) : M unit :=
  q <- curSequence ;; SetSequence p q ;;; incSequence.

Definition get (key : ItemBody) : M (option ptr * bool) :=
  item <- BTree_Get readWritesTree key ;;
  match item with
  | None => ret (None, false)
  | Some p =>
      it <- deref p ;;
      if HasFlag it DeletedFlag then ret (None, false) else ret (Some p, true)
  end.

Definition accountKey (address : bytes) : ItemBody :=
  AccountBody (go_copy zeroAddress address) emptyAccount.
Definition storageKey (address : bytes) (incarnation : N) (location : bytes) : ItemBody :=
  StorageBody (go_copy zeroAddress address) incarnation (go_copy zeroHash location) zeroHash.
Definition codeKey (address : bytes) : ItemBody :=
  CodeBody (go_copy zeroAddress address) None.

Definition GetAccount (address : bytes) : M (option Account * bool) :=
  r <- get (accountKey address) ;;
  match r with
  | (Some p, true) =>
      it <- deref p ;;
      match body it with AccountBody _ a => ret (Some a, true) | _ => panic end
  | _ => ret (None, false)
  end.

Definition GetStorage (address : bytes) (incarnation : N) (location : bytes)
  : M (option bytes * bool) :=
  r <- get (storageKey address incarnation location) ;;
  match r with
  | (Some p, true) =>
      it <- deref p ;;
      match body it with StorageBody _ _ _ v => ret (Some v, true) | _ => panic end
  | _ => ret (None, false)
  end.

Definition GetCode (address : bytes) : M (option bytes * bool) :=
  r <- get (codeKey address) ;;
  match r with
  | (Some p, true) =>
      it <- deref p ;;
      match body it with CodeBody _ c => ret (c, true) | _ => panic end
  | _ => ret (None, true)
  end.

Definition setRead (item : ptr) : M unit :=
  it <- deref item ;;
  found <- BTree_Get readWritesTree (body it) ;;
  match found with
  | Some _ => panic
  | None =>
      SetQueuePos item 0 ;;;
      q <- curSequence ;; SetSequence item q ;;;
      BTree_ReplaceOrInsert readWritesTree item ;;;
      rl <- hLen readQueue ;; s <- getS ;;
      if limitReads s <=? rl then
        (* Read queue cannot grow anymore, need to evict one element *)
        x <- heap_get 0 ;; BTree_Delete readWritesTree x ;;;
        heap_set 0 (Some item) ;;;
        heap_Fix readQueue 0
      else heap_Push readQueue item
  end.

Definition SetAccountRead (address : bytes) (account : Account) : M unit :=
  aci <- alloc (mkItem (AccountBody (go_copy zeroAddress address) account) 0 0 0) ;;
  setRead aci.

Definition SetAccountAbsent (address : bytes) : M unit :=
  aci <- alloc (mkItem (AccountBody (go_copy zeroAddress address) emptyAccount) 0 0 DeletedFlag) ;;
  setRead aci.

Definition SetStorageRead (address : bytes) (incarnation : N) (location value : bytes) : M unit :=
  sci <- alloc (mkItem (StorageBody (go_copy zeroAddress address) incarnation
                          (go_copy zeroHash location) (go_copy zeroHash value)) 0 0 0) ;;
  setRead sci.

Definition SetStorageAbsent (address : bytes) (incarnation : N) (location : bytes) : M unit :=
  sci <- alloc (mkItem (StorageBody (go_copy zeroAddress address) incarnation
                          (go_copy zeroHash location) zeroHash) 0 0 DeletedFlag) ;;
  setRead sci.

Definition SetCodeRead (address code : bytes) : M unit :=
  cci <- alloc (mkItem (CodeBody (go_copy zeroAddress address) (Some code)) 0 0 0) ;;
  setRead cci.

Definition SetCodeAbsent (address : bytes) : M unit :=
  cci <- alloc (mkItem (CodeBody (go_copy zeroAddress address) None) 0 0 DeletedFlag) ;;
  setRead cci.

(** Value updates through the typed pointer; the type assertion
    type assertion on the variant panics on another variant. *)
Definition setAccountValue (p : ptr) (a : Account) : M unit :=
  it <- deref p ;;
  match body it with
  | AccountBody addr _ => SetBody p (AccountBody addr a)
  | _ => panic
  end.

Definition setStorageValue (p : ptr) (value : bytes) : M unit :=
  it <- deref p ;;
  match body it with
  | StorageBody addr inc loc v => SetBody p (StorageBody addr inc loc (go_copy v value))
  | _ => panic
  end.

Definition asStorage (p : ptr) : M unit :=
  it <- deref p ;;
  match body it with StorageBody _ _ _ _ => ret tt | _ => panic end.

Definition setCodeValue (p : ptr) (code : option bytes) : M unit :=
  it <- deref p ;;
  match body it with
  | CodeBody addr _ => SetBody p (CodeBody addr code)
  | _ => panic
  end.

(** [AccountCacheItem.CopyValueFrom]: the type assertion on the argument
    panics unless it is an account item; [aci.account.Copy] copies the
    account value. *)
Definition CopyValueFrom (aci : ptr) (item : ptr) : M unit :=
  other <- deref item ;;
  match body other with
  | AccountBody _ a =>
      it <- deref aci ;;
      match body it with
      | AccountBody addr _ => SetBody aci (AccountBody addr a)
      | _ => panic
      end
  | _ => panic
  end.

(** The two checks before a new write entry:
    the write budget, then the combined budget (evict one read). *)
Definition checkWriteBudget : M unit :=
  wl <- hLen writeQueue ;; s <- getS ;;
  if limitWrites s <=? wl then panic else
  rl <- hLen readQueue ;; wl' <- hLen writeQueue ;; s' <- getS ;;
  if int64_wrap (limitReads s' + limitWrites s') <=? rl + wl'
  then x <- heap_Pop readQueue ;; x' <- nonnil x ;;
       BTree_Delete readWritesTree (Some x')
  else ret tt.

(** [existing.queuePos = sc.writeQueue.Len(); heap.Push(&sc.writeQueue, existing)] *)
Definition moveToWriteQueue (existing : ptr) : M unit :=
  pos <- GetQueuePos existing ;;
  heap_Remove readQueue pos ;;;
  wl <- hLen writeQueue ;; SetQueuePos existing wl ;;;
  heap_Push writeQueue existing.

(** A new item: [sequence], [flags] and [queuePos = writeQueue.Len()]. *)
Definition newWriteItem (b : ItemBody) (f : Z) : M ptr :=
  q <- curSequence ;; incSequence ;;;
  wl <- hLen writeQueue ;;
  alloc (mkItem b q wl f).

Definition SetAccountWrite (address : bytes) (account : Account) : M unit :=
  let addr := go_copy zeroAddress address in
  item <- BTree_Get writesTree (AccountBody addr emptyAccount) ;;
  match item with
  | Some existing =>
      setAccountValue existing account ;;; bumpSequence existing ;;;
      SetFlagsTo existing ModifiedFlag ;;;
      pos <- GetQueuePos existing ;; heap_Fix writeQueue pos
  | None =>
  item <- BTree_Get readWritesTree (AccountBody addr emptyAccount) ;;
  match item with
  | Some existing =>
      setAccountValue existing account ;;; bumpSequence existing ;;;
      SetFlagsTo existing ModifiedFlag ;;;
      moveToWriteQueue existing
  | None =>
      checkWriteBudget ;;;
      aci <- newWriteItem (AccountBody addr account) ModifiedFlag ;;
      heap_Push writeQueue aci ;;;
      BTree_ReplaceOrInsert readWritesTree aci ;;;
      BTree_ReplaceOrInsert writesTree aci
  end end.

Definition SetAccountDelete (address : bytes) : M unit :=
  let addr := go_copy zeroAddress address in
  item <- BTree_Get writesTree (AccountBody addr emptyAccount) ;;
  match item with
  | Some existing =>
      setAccountValue existing emptyAccount ;;; bumpSequence existing ;;;
      SetFlagsTo existing (Z.lor ModifiedFlag DeletedFlag) ;;;
      pos <- GetQueuePos existing ;; heap_Fix writeQueue pos
  | None =>
  item <- BTree_Get readWritesTree (AccountBody addr emptyAccount) ;;
  match item with
  | Some existing =>
      setAccountValue existing emptyAccount ;;; bumpSequence existing ;;;
      SetFlagsTo existing (Z.lor ModifiedFlag DeletedFlag) ;;;
      moveToWriteQueue existing
  | None =>
      checkWriteBudget ;;;
      aci <- newWriteItem (AccountBody addr emptyAccount) DeletedFlag ;;
      heap_Push writeQueue aci ;;;
      BTree_ReplaceOrInsert readWritesTree aci ;;;
      BTree_ReplaceOrInsert writesTree aci
  end end.

Definition SetStorageWrite (address : bytes) (incarnation : N) (location value : bytes) : M unit :=
  let key := storageKey address incarnation location in
  item <- BTree_Get writesTree key ;;
  match item with
  | Some existing =>
      setStorageValue existing value ;;; bumpSequence existing ;;;
      SetFlagsTo existing ModifiedFlag ;;;
      pos <- GetQueuePos existing ;; heap_Fix writeQueue pos
  | None =>
  item <- BTree_Get readWritesTree key ;;
  match item with
  | Some existing =>
      setStorageValue existing value ;;; bumpSequence existing ;;;
      SetFlagsTo existing ModifiedFlag ;;;
      moveToWriteQueue existing
  | None =>
      checkWriteBudget ;;;
      sci <- newWriteItem (StorageBody (go_copy zeroAddress address) incarnation
                             (go_copy zeroHash location) (go_copy zeroHash value))
                          ModifiedFlag ;;
      heap_Push writeQueue sci
  end end.

Definition SetStorageDelete (address : bytes) (incarnation : N) (location : bytes) : M unit :=
  let key := storageKey address incarnation location in
  item <- BTree_Get writesTree key ;;
  match item with
  | Some existing =>
      asStorage existing ;;; bumpSequence existing ;;;
      SetFlagsTo existing (Z.lor ModifiedFlag DeletedFlag) ;;;
      pos <- GetQueuePos existing ;; heap_Fix writeQueue pos
  | None =>
  item <- BTree_Get readWritesTree key ;;
  match item with
  | Some existing =>
      asStorage existing ;;; bumpSequence existing ;;;
      SetFlagsTo existing (Z.lor ModifiedFlag DeletedFlag) ;;;
      moveToWriteQueue existing
  | None =>
      checkWriteBudget ;;;
      sci <- newWriteItem (StorageBody (go_copy zeroAddress address) incarnation
                             (go_copy zeroHash location) zeroHash)
                          DeletedFlag ;;
      heap_Push writeQueue sci
  end end.

Definition SetCodeWrite (address code : bytes) : M unit :=
  let key := codeKey address in
  item <- BTree_Get writesTree key ;;
  match item with
  | Some existing =>
      setCodeValue existing (Some code) ;;; bumpSequence existing ;;;
      SetFlagsTo existing ModifiedFlag ;;;
      pos <- GetQueuePos existing ;; heap_Fix writeQueue pos
  | None =>
  item <- BTree_Get readWritesTree key ;;
  match item with
  | Some existing =>
      setCodeValue existing (Some code) ;;; bumpSequence existing ;;;
      SetFlagsTo existing ModifiedFlag ;;;
      moveToWriteQueue existing
  | None =>
      checkWriteBudget ;;;
      cci <- newWriteItem (CodeBody (go_copy zeroAddress address) (Some code)) ModifiedFlag ;;
      heap_Push writeQueue cci
  end end.

Definition SetCodeDelete (address : bytes) : M unit :=
  let key := codeKey address in
  item <- BTree_Get writesTree key ;;
  match item with
  | Some existing =>
      setCodeValue existing None ;;; bumpSequence existing ;;;
      SetFlagsTo existing ModifiedFlag ;;;
      pos <- GetQueuePos existing ;; heap_Fix writeQueue pos
  | None =>
  item <- BTree_Get readWritesTree key ;;
  match item with
  | Some existing =>
      setCodeValue existing None ;;; bumpSequence existing ;;;
      SetFlagsTo existing (Z.lor ModifiedFlag DeletedFlag) ;;;
      moveToWriteQueue existing
  | None =>
      checkWriteBudget ;;;
      cci <- newWriteItem (CodeBody (go_copy zeroAddress address) None)
                          (Z.lor ModifiedFlag DeletedFlag) ;;
      heap_Push writeQueue cci
  end end.

(** [btree.Ascend] over a snapshot of the tree (the visitor does not
    change the tree). *)
Fixpoint ascend (t : list ptr) (visit : ptr -> M unit) : M unit :=
  match t with
  | [] => ret tt
  | p :: t' => visit p ;;; ascend t' visit
  end.

(** [copy(items[e:], items[st:])] on one backing array (memmove). *)
Definition copy_within (h : list (option ptr)) (e st : Z) : M (list (option ptr)) :=
  let len := Z.of_nat (length h) in
  if (e <? 0) || (len <? e) || (st <? 0) || (len <? st) then panic else
  let n := Z.min (len - e) (len - st) in
  ret (firstn (Z.to_nat e) h ++ firstn (Z.to_nat n) (skipn (Z.to_nat st) h)
       ++ skipn (Z.to_nat (e + n)) h).

Definition TurnWritesToReads : M unit :=
  wl <- hLen writeQueue ;; let writeLen := wl - 1 in
  s0 <- getS ;;
  ascend (writes s0) (fun p =>
    s <- getS ;; pos <- GetQueuePos p ;;
    SetQueuePos p (readEnd s + writeLen - pos) ;;;
    ClearFlags p ModifiedFlag) ;;;
  s1 <- getS ;;
  h <- copy_within (heapItems s1) (readEnd s1) (writeStart s1) ;;
  putS (with_heapItems s1 h) ;;;
  s2 <- getS ;; putS (with_readEnd s2 (readEnd s2 + (heapLen s2 - writeStart s2))) ;;;
  s3 <- getS ;; putS (with_writeStart s3 (heapLen s3)) ;;;
  heap_Init readQueue.

(** Running a program on a new cache. *)
Definition runNew {A} (degree lr lw : Z) (m : M A) : option (A * StateCache) :=
  match NewStateCache degree lr lw with
  | None => None
  | Some s => m s
  end.

(** Item [p] of a final state. *)
Definition itemAt (r : option (unit * StateCache)) (p : ptr) : option CacheItem :=
  match r with Some (_, s) => nth_error (store s) p | None => None end.

(** The result and the final state of a run. *)
Definition resultOf {A} (r : option (A * StateCache)) : option A := option_map fst r.
Definition stateOf {A} (r : option (A * StateCache)) : option StateCache := option_map snd r.

(** The final state of a run (the empty cache if it panicked). *)
Definition cacheAfter {A} (r : option (A * StateCache)) : StateCache :=
  match r with Some (_, s) => s | None => mkStateCache [] [] [] [] 0 0 0 0 0 end.

(** ** Sample inputs *)

Definition addr1 : bytes := repeat Byte.x01 20.
Definition addr2 : bytes := repeat Byte.x02 20.
Definition loc1 : bytes := repeat Byte.x07 32.
Definition val1 : bytes := repeat Byte.x09 32.
Definition code1 : bytes := [Byte.x60; Byte.x00; Byte.x56].
Definition accA : Account := mkAccount 1 100 1.
Definition accA' : Account := mkAccount 2 50 1.

(** ** Key order (the B-tree's [Less]) *)

Inductive ItemKey :=
| KAccount (address : bytes)
| KStorage (address : bytes) (incarnation : N) (location : bytes)
| KCode (address : bytes).

Definition keyOf (b : ItemBody) : ItemKey :=
  match b with
  | AccountBody a _ => KAccount a
  | StorageBody a i l _ => KStorage a i l
  | CodeBody a _ => KCode a
  end.

Definition addressOf (b : ItemBody) : bytes :=
  match b with
  | AccountBody a _ => a
  | StorageBody a _ _ _ => a
  | CodeBody a _ => a
  end.

(** ** Lookups as seen by the B-tree *)

Definition lookup (s : StateCache) (key : ItemBody) : option (option ptr) :=
  bt_find (store s) (readWrites s) key.

Definition tombstoned (s : StateCache) (key : ItemBody) : Prop :=
  exists p it, lookup s key = Some (Some p) /\ nth_error (store s) p = Some it /\
               HasFlag it DeletedFlag = true.

Definition missing (s : StateCache) (key : ItemBody) : Prop :=
  lookup s key = Some None.

Definition live (s : StateCache) (key : ItemBody) (it : CacheItem) : Prop :=
  exists p, lookup s key = Some (Some p) /\ nth_error (store s) p = Some it /\
            HasFlag it DeletedFlag = false.

(** ** The key order of the spec

    Follows the spec's words (§3 Key ordering, §9 option (a)): compare the
    address, then the class rank Account = 0, Code = 1, Storage = 2, then
    (storage only) the incarnation and the location. *)

Definition lexCompare (c1 c2 : comparison) : comparison :=
  match c1 with Eq => c2 | c => c end.

Definition keyTuple (k : ItemKey) : bytes * N * N * bytes :=
  match k with
  | KAccount a => (a, 0%N, 0%N, [])
  | KCode a => (a, 1%N, 0%N, [])
  | KStorage a i l => (a, 2%N, i, l)
  end.

Definition tupleCompare (t1 t2 : bytes * N * N * bytes) : comparison :=
  let '(a1, r1, i1, l1) := t1 in
  let '(a2, r2, i2, l2) := t2 in
  lexCompare (bytes_Compare a1 a2)
    (lexCompare (N.compare r1 r2)
       (lexCompare (N.compare i1 i2) (bytes_Compare l1 l2))).

Definition spec_key_compare (k1 k2 : ItemKey) : comparison :=
  tupleCompare (keyTuple k1) (keyTuple k2).

(** ** Frames: what an operation leaves unchanged *)

(** The part of an item the heaps never touch: its key and value, and its
    flags. *)
Definition strip (it : CacheItem) : ItemBody * Z := (body it, flags it).

Definition itemKeys (st : list CacheItem) : list ItemKey :=
  map (fun it => keyOf (body it)) st.

(** Heap reshuffles change slots, queue positions and sequences only. *)
Definition heap_frame (s s' : StateCache) : Prop :=
  map strip (store s') = map strip (store s) /\ readWrites s' = readWrites s /\
  writes s' = writes s /\ limitReads s' = limitReads s /\
  limitWrites s' = limitWrites s /\ scSequence s' = scSequence s.

(** The B-trees and the keys of all items are unchanged. *)
Definition tree_frame (s s' : StateCache) : Prop :=
  itemKeys (store s') = itemKeys (store s) /\ readWrites s' = readWrites s /\
  writes s' = writes s.

(** [sc.sequence] unchanged, resp. advanced by one. *)
Definition seq_eq (s s' : StateCache) : Prop := scSequence s' = scSequence s.
Definition seq_step (s s' : StateCache) : Prop := scSequence s' = int64_wrap (scSequence s + 1).

(** [sc.sequence] and the [writes] tree unchanged. *)
Definition read_frame (s s' : StateCache) : Prop :=
  scSequence s' = scSequence s /\ writes s' = writes s.

(** Heap reshuffles that only swap: also the slice length and the two
    queue bounds are unchanged. *)
Definition slot_frame (s s' : StateCache) : Prop :=
  heap_frame s s' /\ readEnd s' = readEnd s /\ writeStart s' = writeStart s /\
  length (heapItems s') = length (heapItems s).

(** The flags after [ClearFlags(ModifiedFlag)]. *)
Definition clearModified (f : Z) : Z := Z.land f (Z.lnot ModifiedFlag).

(** The bounds of the two queues, the slice length and the limits. *)
Definition bounds_eq (s s' : StateCache) : Prop :=
  readEnd s' = readEnd s /\ writeStart s' = writeStart s /\
  length (heapItems s') = length (heapItems s) /\
  limitReads s' = limitReads s /\ limitWrites s' = limitWrites s.

Definition Preserves {A} (R : StateCache -> StateCache -> Prop) (m : M A) : Prop :=
  forall s a s', m s = Some (a, s') -> R s s'.

Definition lookupWrites (s : StateCache) (key : ItemBody) : option (option ptr) :=
  bt_find (store s) (writes s) key.

(** ** Sample states *)

Definition emptyCache : StateCache := cacheAfter (runNew 32 2 2 (ret tt)).
Definition readAccCache : StateCache := cacheAfter (runNew 32 2 2 (SetAccountRead addr1 accA)).
Definition readStoCache : StateCache :=
  cacheAfter (runNew 32 2 2 (SetStorageRead addr1 1 loc1 val1)).
Definition readCodeCache : StateCache := cacheAfter (runNew 32 2 2 (SetCodeRead addr1 code1)).
Definition writeAccCache : StateCache := cacheAfter (runNew 32 2 2 (SetAccountWrite addr1 accA)).
Definition noWriteBudgetCache : StateCache := cacheAfter (runNew 32 2 0 (ret tt)).
Definition twoReadsCache : StateCache :=
  cacheAfter (runNew 32 2 2 (SetAccountRead addr1 accA ;;; SetAccountRead addr2 accA')).
Definition fullReadsCache : StateCache :=
  cacheAfter (runNew 32 1 1 (SetAccountRead addr1 accA ;;;
                             alloc (mkItem (AccountBody addr2 accA') 0 0 0))).

(** * Claims *)

(** ** Write then read *)

(** C1 (code_bug): a fresh [SetStorageWrite] or [SetCodeWrite] pushes the
    item on the write heap only; it is in neither B-tree, so the next
    [GetStorage] misses and [GetCode] does not return the written code,
    while [SetAccountWrite] inserts into both trees and is found. *)
Theorem fresh_storage_code_write_not_indexed :
  resultOf (runNew 32 2 2 (SetStorageWrite addr1 1 loc1 val1 ;;; GetStorage addr1 1 loc1))
    = Some (None, false) /\
  option_map readWrites (stateOf (runNew 32 2 2 (SetStorageWrite addr1 1 loc1 val1))) = Some [] /\
  option_map writes (stateOf (runNew 32 2 2 (SetStorageWrite addr1 1 loc1 val1))) = Some [] /\
  resultOf (runNew 32 2 2 (SetCodeWrite addr1 code1 ;;; GetCode addr1)) = Some (None, true) /\
  option_map readWrites (stateOf (runNew 32 2 2 (SetCodeWrite addr1 code1))) = Some [] /\
  option_map writes (stateOf (runNew 32 2 2 (SetCodeWrite addr1 code1))) = Some [] /\
  resultOf (runNew 32 2 2 (SetAccountWrite addr1 accA ;;; GetAccount addr1))
    = Some (Some accA, true).
Proof. vm_compute. repeat split. Qed.

(** C2 (code_bug): upgrading a clean read to a write moves the item from
    the read heap to the write heap but never inserts it into [writes]:
    after [SetAccountRead(a, A); SetAccountWrite(a, A')] the lookup gives
    [A'] and [|readWrites| = 1], but [|writes| = 0]. *)
Theorem read_then_write_not_in_writes :
  let r := runNew 32 2 2 (SetAccountRead addr1 accA ;;; SetAccountWrite addr1 accA' ;;;
                          GetAccount addr1) in
  resultOf r = Some (Some accA', true) /\
  option_map (fun s => length (readWrites s)) (stateOf r) = Some 1%nat /\
  option_map (fun s => length (writes s)) (stateOf r) = Some 0%nat /\
  option_map (fun s => (readEnd s, writeStart s)) (stateOf r) = Some (0, 3).
Proof. vm_compute. repeat split. Qed.

(** ** Commit *)

(** C3 (code_bug): [TurnWritesToReads] leaves [writes] as it was (one
    entry after one account write), and an item upgraded from a read
    (never put in [writes]) keeps [ModifiedFlag] after it. *)
Theorem turn_writes_to_reads_leaves_writes :
  option_map (fun s => length (writes s))
    (stateOf (runNew 32 2 2 (SetAccountWrite addr1 accA ;;; TurnWritesToReads)))
    = Some 1%nat /\
  let r := runNew 32 2 2 (SetAccountRead addr1 accA ;;; SetAccountWrite addr1 accA' ;;;
                          TurnWritesToReads) in
  option_map readWrites (stateOf r) = Some [0%nat] /\
  option_map (fun it => HasFlag it ModifiedFlag) (itemAt r 0%nat) = Some true.
Proof. vm_compute. repeat split. Qed.

(** ** Queue positions *)

(** C4 (code_bug): [setRead] sets [queuePos] to 0 and [ReadHeap.Push]
    never sets it, so the second read item sits at [H[1]] with
    [queuePos = 0]; and [WriteHeap.Swap] sets the positions on the
    unreflected slots [items[i]], [items[j]], so re-writing the oldest of
    two write entries with one read slot ([NewStateCache(32, 1, 2)]) calls
    [SetQueuePos] on the nil [items[0]] and panics. *)
Theorem queue_pos_not_tracked :
  let r := runNew 32 2 2 (SetAccountRead addr1 accA ;;; SetAccountRead addr2 accA) in
  option_map heapItems (stateOf r) = Some [Some 0%nat; Some 1%nat; None; None] /\
  option_map queuePos (itemAt r 1%nat) = Some 0 /\
  runNew 32 1 2 (SetAccountWrite addr1 accA ;;; SetAccountWrite addr2 accA ;;;
                 SetAccountWrite addr1 accA') = None.
Proof. vm_compute. repeat split. Qed.

(** ** Sequences *)

(** C5 (code_bug): [setRead] assigns [sc.sequence] without incrementing
    it, so two reads in a row get the same sequence value 0. *)
Theorem read_sequences_shared :
  let r := runNew 32 2 2 (SetAccountRead addr1 accA ;;; SetAccountRead addr2 accA) in
  option_map sequence (itemAt r 0%nat) = Some 0 /\
  option_map sequence (itemAt r 1%nat) = Some 0 /\
  option_map scSequence (stateOf r) = Some 0 /\
  option_map readWrites (stateOf r) = Some [0%nat; 1%nat].
Proof. vm_compute. repeat split. Qed.

(** ** Deletion *)

(** C6 (code_bug): a fresh [SetAccountDelete] leaves flags [DeletedFlag]
    only (not [ModifiedFlag]); [SetStorageDelete] on a clean read sets
    [ModifiedFlag | DeletedFlag] but keeps the old value. *)
Theorem delete_not_dirty_tombstone :
  option_map flags (itemAt (runNew 32 2 2 (SetAccountDelete addr1)) 0%nat) = Some DeletedFlag /\
  let r := runNew 32 2 2 (SetStorageRead addr1 1 loc1 val1 ;;; SetStorageDelete addr1 1 loc1) in
  option_map flags (itemAt r 0%nat) = Some (Z.lor ModifiedFlag DeletedFlag) /\
  option_map body (itemAt r 0%nat) = Some (StorageBody addr1 1 loc1 val1).
Proof. vm_compute. repeat split. Qed.

(** ** Lookups *)

(** C8 (code_bug): [GetCode] on a new cache reports found ([true]), where
    [GetAccount] and [GetStorage] report not found. *)
Theorem get_code_miss_reports_found :
  resultOf (runNew 32 2 2 (GetCode addr1)) = Some (None, true) /\
  resultOf (runNew 32 2 2 (GetAccount addr1)) = Some (None, false) /\
  resultOf (runNew 32 2 2 (GetStorage addr1 1 loc1)) = Some (None, false).
Proof. vm_compute. repeat split. Qed.

(** ** Order lemmas on [bytes.Compare] *)

Lemma byte_to_N_inj (x y : Byte.byte) : Byte.to_N x = Byte.to_N y -> x = y.
Proof.
  intro H. apply (f_equal Byte.of_N) in H. rewrite !Byte.of_to_N in H. congruence.
Qed.

Lemma bytes_Compare_refl (a : bytes) : bytes_Compare a a = Eq.
Proof. induction a as [|x a IH]; simpl; [reflexivity|]. now rewrite N.compare_refl. Qed.

Lemma bytes_Compare_eq (a b : bytes) : bytes_Compare a b = Eq -> a = b.
Proof.
  revert b; induction a as [|x a IH]; intros [|y b]; simpl; try discriminate; auto.
  destruct (N.compare_spec (Byte.to_N x) (Byte.to_N y)) as [E|E|E];
    try discriminate.
  intro H. f_equal; [now apply byte_to_N_inj | now apply IH].
Qed.

Lemma bytes_Compare_antisym (a b : bytes) :
  bytes_Compare b a = CompOpp (bytes_Compare a b).
Proof.
  revert b; induction a as [|x a IH]; intros [|y b]; simpl; auto.
  pose proof (N.compare_antisym (Byte.to_N x) (Byte.to_N y)) as H.
  destruct (N.compare (Byte.to_N x) (Byte.to_N y)),
           (N.compare (Byte.to_N y) (Byte.to_N x));
    simpl in *; try discriminate; auto.
Qed.

Lemma bytes_Compare_trans (a b c : bytes) :
  bytes_Compare a b = Lt -> bytes_Compare b c = Lt -> bytes_Compare a c = Lt.
Proof.
  revert b c; induction a as [|x a IH]; intros [|y b] [|z c]; simpl;
    try discriminate; auto.
  destruct (N.compare_spec (Byte.to_N x) (Byte.to_N y)) as [E1|E1|E1];
  destruct (N.compare_spec (Byte.to_N y) (Byte.to_N z)) as [E2|E2|E2];
  destruct (N.compare_spec (Byte.to_N x) (Byte.to_N z)) as [E3|E3|E3];
  intros H1 H2; try discriminate; try lia; eauto.
Qed.

Lemma lexCompare_opp (c1 c2 : comparison) :
  lexCompare (CompOpp c1) (CompOpp c2) = CompOpp (lexCompare c1 c2).
Proof. destruct c1; reflexivity. Qed.

Lemma lexCompare_eq (c1 c2 : comparison) :
  lexCompare c1 c2 = Eq -> c1 = Eq /\ c2 = Eq.
Proof. destruct c1; simpl; auto; discriminate. Qed.

Lemma lexCompare_trans {A} (f : A -> A -> comparison)
  (feq : forall x y, f x y = Eq -> x = y)
  (ftrans : forall x y z, f x y = Lt -> f y z = Lt -> f x z = Lt)
  (x y z : A) (c1 c2 c3 : comparison) :
  (c1 = Lt -> c2 = Lt -> c3 = Lt) ->
  lexCompare (f x y) c1 = Lt -> lexCompare (f y z) c2 = Lt ->
  lexCompare (f x z) c3 = Lt.
Proof.
  intros Hc H1 H2.
  destruct (f x y) eqn:Exy; simpl in H1; try discriminate.
  - apply feq in Exy; subst y.
    destruct (f x z) eqn:Exz; simpl in *; try discriminate; auto.
  - destruct (f y z) eqn:Eyz; simpl in H2; try discriminate.
    + apply feq in Eyz; subst z. now rewrite Exy.
    + now rewrite (ftrans x y z Exy Eyz).
Qed.

Lemma N_compare_trans (x y z : N) :
  N.compare x y = Lt -> N.compare y z = Lt -> N.compare x z = Lt.
Proof. rewrite !N.compare_lt_iff. lia. Qed.

Lemma tupleCompare_antisym (t1 t2 : bytes * N * N * bytes) :
  tupleCompare t2 t1 = CompOpp (tupleCompare t1 t2).
Proof.
  destruct t1 as [[[a1 r1] i1] l1], t2 as [[[a2 r2] i2] l2]; simpl.
  rewrite (bytes_Compare_antisym a1 a2), (N.compare_antisym r1 r2),
    (N.compare_antisym i1 i2), (bytes_Compare_antisym l1 l2).
  now rewrite !lexCompare_opp.
Qed.

Lemma tupleCompare_eq (t1 t2 : bytes * N * N * bytes) :
  tupleCompare t1 t2 = Eq -> t1 = t2.
Proof.
  destruct t1 as [[[a1 r1] i1] l1], t2 as [[[a2 r2] i2] l2]; simpl.
  intros H.
  apply lexCompare_eq in H as [Ha H].
  apply lexCompare_eq in H as [Hr H].
  apply lexCompare_eq in H as [Hi Hl].
  apply bytes_Compare_eq in Ha, Hl. apply N.compare_eq in Hr, Hi.
  now subst.
Qed.

Lemma tupleCompare_trans (t1 t2 t3 : bytes * N * N * bytes) :
  tupleCompare t1 t2 = Lt -> tupleCompare t2 t3 = Lt -> tupleCompare t1 t3 = Lt.
Proof.
  destruct t1 as [[[a1 r1] i1] l1], t2 as [[[a2 r2] i2] l2],
    t3 as [[[a3 r3] i3] l3]; simpl.
  apply (lexCompare_trans bytes_Compare bytes_Compare_eq bytes_Compare_trans).
  apply (lexCompare_trans N.compare N.compare_eq N_compare_trans).
  apply (lexCompare_trans N.compare N.compare_eq N_compare_trans).
  apply bytes_Compare_trans.
Qed.

Lemma keyTuple_inj (k1 k2 : ItemKey) : keyTuple k1 = keyTuple k2 -> k1 = k2.
Proof. destruct k1, k2; simpl; intro H; inversion H; congruence. Qed.

Lemma spec_key_compare_eq (k1 k2 : ItemKey) : spec_key_compare k1 k2 = Eq <-> k1 = k2.
Proof.
  unfold spec_key_compare. split.
  - intro H. now apply keyTuple_inj, tupleCompare_eq.
  - intros ->. destruct (tupleCompare (keyTuple k2) (keyTuple k2)) eqn:E; auto;
      pose proof (tupleCompare_antisym (keyTuple k2) (keyTuple k2)) as H;
      rewrite E in H; discriminate.
Qed.

(** [Less] of the three item types is the spec's key order. *)
Lemma body_Less_spec (a b : ItemBody) :
  body_Less a b = match spec_key_compare (keyOf a) (keyOf b) with Lt => true | _ => false end.
Proof.
  destruct a as [aa ?|aa ai al ?|aa ?], b as [ba ?|ba bi bl ?|ba ?];
    unfold spec_key_compare; simpl;
    destruct (bytes_Compare aa ba); simpl; auto.
  destruct (N.compare_spec ai bi) as [E|E|E].
  - subst. rewrite N.eqb_refl. destruct (bytes_Compare al bl); reflexivity.
  - assert (N.eqb ai bi = false) as -> by (apply N.eqb_neq; lia).
    apply N.ltb_lt in E. now rewrite E.
  - assert (N.eqb ai bi = false) as -> by (apply N.eqb_neq; lia).
    assert (N.ltb ai bi = false) as -> by (apply N.ltb_ge; lia). reflexivity.
Qed.

(** C9: the items' [Less] is the spec's total key order: it agrees with
    [spec_key_compare]; for any two items exactly one of [a < b], [b < a],
    or equal keys holds; it is transitive; at one address the account
    sorts before the code, which sorts before every storage slot; no item
    of an address sorts before that address's account key; and every item
    of a smaller address sorts before every item of a larger one, so an
    ascending walk from the account key of an address yields that
    address's account, code and storage before any larger address. *)
Theorem Less_is_key_order :
  (forall a b, body_Less a b = true <-> spec_key_compare (keyOf a) (keyOf b) = Lt) /\
  (forall a b,
      (body_Less a b = true /\ body_Less b a = false /\ keyOf a <> keyOf b) \/
      (body_Less a b = false /\ body_Less b a = true /\ keyOf a <> keyOf b) \/
      (body_Less a b = false /\ body_Less b a = false /\ keyOf a = keyOf b)) /\
  (forall a b c, body_Less a b = true -> body_Less b c = true -> body_Less a c = true) /\
  (forall A acc code i l v,
      body_Less (AccountBody A acc) (CodeBody A code) = true /\
      body_Less (CodeBody A code) (StorageBody A i l v) = true /\
      body_Less (AccountBody A acc) (StorageBody A i l v) = true) /\
  (forall A acc x, addressOf x = A -> body_Less x (AccountBody A acc) = false) /\
  (forall x y, bytes_Compare (addressOf x) (addressOf y) = Lt -> body_Less x y = true).
Proof.
  split; [|split; [|split; [|split; [|split]]]].
  - intros a b. rewrite body_Less_spec.
    destruct (spec_key_compare (keyOf a) (keyOf b)); split; congruence.
  - intros a b. rewrite !body_Less_spec.
    pose proof (tupleCompare_antisym (keyTuple (keyOf a)) (keyTuple (keyOf b))) as Hop.
    pose proof (spec_key_compare_eq (keyOf a) (keyOf b)) as Heq.
    unfold spec_key_compare in *.
    destruct (tupleCompare (keyTuple (keyOf a)) (keyTuple (keyOf b))) eqn:E;
      rewrite Hop; simpl.
    + right; right. repeat split. now apply Heq.
    + left. repeat split. intro H. apply Heq in H. discriminate.
    + right; left. repeat split. intro H. apply Heq in H. discriminate.
  - intros a b c. rewrite !body_Less_spec. unfold spec_key_compare.
    destruct (tupleCompare (keyTuple (keyOf a)) (keyTuple (keyOf b))) eqn:E1;
      try discriminate.
    destruct (tupleCompare (keyTuple (keyOf b)) (keyTuple (keyOf c))) eqn:E2;
      try discriminate.
    now rewrite (tupleCompare_trans _ _ _ E1 E2).
  - intros A acc code i l v. simpl. now rewrite bytes_Compare_refl.
  - intros A acc x <-.
    destruct x as [xa ?|xa xi xl ?|xa ?]; simpl; now rewrite bytes_Compare_refl.
  - intros x y H.
    destruct x as [xa ?|xa xi xl ?|xa ?], y as [ya ?|ya yi yl ?|ya ?];
      simpl in *; now rewrite H.
Qed.

Lemma Less_is_key_order_witness :
  body_Less (AccountBody addr1 accA) (CodeBody addr1 None) = true /\
  body_Less (CodeBody addr1 None) (StorageBody addr1 1 loc1 val1) = true /\
  body_Less (AccountBody addr1 accA) (StorageBody addr1 1 loc1 val1) = true /\
  body_Less (StorageBody addr1 1 loc1 val1) (AccountBody addr2 accA) = true /\
  body_Less (StorageBody addr1 5 loc1 val1) (AccountBody addr1 accA) = false.
Proof.
  destruct Less_is_key_order as [_ [_ [Htrans [Hblock [Hmin Hlt]]]]].
  destruct (Hblock addr1 accA None 1%N loc1 val1) as [H1 [H2 H3]].
  split; [exact H1 | split; [exact H2 | split; [exact H3 | split]]].
  - apply Hlt. reflexivity.
  - apply Hmin. reflexivity.
Defined.

(** ** Monad steps *)

Lemma bind_None {A B} (m : M A) (k : A -> M B) s :
  m s = None -> bind m k s = None.
Proof. unfold bind. now intros ->. Qed.

Lemma bind_Some {A B} (m : M A) (k : A -> M B) s a s' :
  m s = Some (a, s') -> bind m k s = k a s'.
Proof. unfold bind. now intros ->. Qed.

Lemma deref_pure p s x s' : deref p s = Some (x, s') -> s' = s /\ nth_error (store s) p = Some x.
Proof.
  unfold deref, bind, getS, lift. cbn.
  destruct (nth_error (store s) p); intro H; inversion H; subst; auto.
Qed.

Lemma BTree_Get_pure t k s x s' : BTree_Get t k s = Some (x, s') -> s' = s.
Proof.
  unfold BTree_Get, bind, getS, lift. cbn.
  destruct (bt_find _ _ _); intro H; inversion H; subst; auto.
Qed.

Lemma curSequence_pure s x s' : curSequence s = Some (x, s') -> s' = s.
Proof. unfold curSequence, bind, getS, ret. congruence. Qed.

(** The fields [setRead] looks at before its eviction. *)
Definition frame (s s' : StateCache) : Prop :=
  heapItems s' = heapItems s /\ limitReads s' = limitReads s /\ readEnd s' = readEnd s.

Lemma update_frame p f s x s' : update p f s = Some (x, s') -> frame s s'.
Proof.
  unfold update, bind, deref, getS, lift, putS. cbn.
  destruct (nth_error (store s) p); [|intro Hc; discriminate Hc].
  intro H; inversion H; subst. unfold frame; cbn; auto.
Qed.

Lemma bt_insert_nonempty st t p k t' : bt_insert st t p k = Some t' -> t' <> [].
Proof.
  destruct t as [|q t]; simpl.
  - intro H; inversion H; discriminate.
  - destruct (nth_error st q) as [it|]; [|intro Hc; discriminate Hc].
    destruct (body_Less k (body it)); [intro H; inversion H; discriminate|].
    destruct (body_Less (body it) k).
    + destruct (bt_insert st t p k); simpl; intro H; inversion H; discriminate.
    + intro H; inversion H; discriminate.
Qed.

Lemma ReplaceOrInsert_rw_frame p s x s' :
  BTree_ReplaceOrInsert readWritesTree p s = Some (x, s') ->
  frame s s' /\ readWrites s' <> [].
Proof.
  unfold BTree_ReplaceOrInsert, bind, deref, getS, lift, putS; cbn.
  destruct (nth_error (store s) p) as [it|]; [|intro Hc; discriminate Hc].
  destruct (bt_insert (store s) (readWrites s) p (body it)) as [t'|] eqn:E;
    [|intro Hc; discriminate Hc].
  intro H; inversion H; subst. unfold frame; cbn.
  repeat split; auto. now apply bt_insert_nonempty in E.
Qed.

Lemma alloc_frame it s x s' : alloc it s = Some (x, s') -> frame s s'.
Proof.
  unfold alloc, bind, getS, putS, ret. intro H; inversion H; subst.
  unfold frame; cbn; auto.
Qed.

Lemma frame_trans s1 s2 s3 : frame s1 s2 -> frame s2 s3 -> frame s1 s3.
Proof. intros [? [? ?]] [? [? ?]]. unfold frame; repeat split; congruence. Qed.

(** With [limitReads = 0], [setRead] takes the eviction branch at once and
    reads slot 0 of the shared slice: out of range or nil, it panics. *)
Lemma setRead_limit_zero_panics (item : ptr) (s : StateCache) :
  limitReads s = 0 -> 0 <= readEnd s ->
  (nth_error (heapItems s) 0 = None \/ nth_error (heapItems s) 0 = Some None) ->
  setRead item s = None.
Proof.
  intros Hlim Hend Hslot. unfold setRead.
  destruct (deref item s) as [[it s1]|] eqn:E1; [|now apply bind_None].
  rewrite (bind_Some _ _ _ _ _ E1). apply deref_pure in E1 as [-> _]. cbv beta.
  destruct (BTree_Get readWritesTree (body it) s) as [[found s2]|] eqn:E2;
    [|now apply bind_None].
  rewrite (bind_Some _ _ _ _ _ E2). apply BTree_Get_pure in E2 as ->. cbv beta.
  destruct found as [q|]; [reflexivity|].
  destruct (SetQueuePos item 0 s) as [[u s3]|] eqn:E3; [|now apply bind_None].
  rewrite (bind_Some _ _ _ _ _ E3). apply update_frame in E3. cbv beta.
  destruct (curSequence s3) as [[q s4]|] eqn:E4; [|now apply bind_None].
  rewrite (bind_Some _ _ _ _ _ E4). apply curSequence_pure in E4 as ->. cbv beta.
  destruct (SetSequence item q s3) as [[u' s5]|] eqn:E5; [|now apply bind_None].
  rewrite (bind_Some _ _ _ _ _ E5). apply update_frame in E5. cbv beta.
  destruct (BTree_ReplaceOrInsert readWritesTree item s5) as [[u'' s6]|] eqn:E6;
    [|now apply bind_None].
  rewrite (bind_Some _ _ _ _ _ E6). apply ReplaceOrInsert_rw_frame in E6 as [E6 Hne].
  cbv beta.
  assert (frame s s6) as [Hh [Hl He]] by eauto using frame_trans.
  unfold bind at 1. cbv [hLen readQueue ReadHeap_Len bind getS ret]. cbv beta iota.
  rewrite Hl, He, Hlim.
  destruct (0 <=? readEnd s) eqn:Ele; [|apply Z.leb_gt in Ele; lia].
  unfold heap_get, slice_get, bind, getS, lift. simpl.
  rewrite Hh.
  destruct (heapItems s) as [|x l]; [reflexivity|].
  simpl in Hslot. destruct Hslot as [Hslot|Hslot]; inversion Hslot; subst x.
  unfold BTree_Delete, bind, getS, nonnil, lift; simpl.
  destruct (readWrites s6); [contradiction|reflexivity].
Qed.

Lemma alloc_setRead_limit_zero_panics (it : CacheItem) (s : StateCache) :
  limitReads s = 0 -> 0 <= readEnd s ->
  (nth_error (heapItems s) 0 = None \/ nth_error (heapItems s) 0 = Some None) ->
  (p <- alloc it ;; setRead p) s = None.
Proof.
  intros Hlim Hend Hslot.
  destruct (alloc it s) as [[p s1]|] eqn:E; [|now apply bind_None].
  rewrite (bind_Some _ _ _ _ _ E). apply alloc_frame in E as [Hh [Hl He]].
  apply setRead_limit_zero_panics; congruence.
Qed.

(** With [limitReads = 0] every read insertion takes the eviction branch
    of [setRead] and panics as long as slot 0 of the shared slice is nil
    or out of range. *)
Lemma read_limit_zero_panics (s : StateCache) :
  limitReads s = 0 -> 0 <= readEnd s ->
  (nth_error (heapItems s) 0 = None \/ nth_error (heapItems s) 0 = Some None) ->
  (forall address account, SetAccountRead address account s = None) /\
  (forall address, SetAccountAbsent address s = None) /\
  (forall address inc loc value, SetStorageRead address inc loc value s = None) /\
  (forall address inc loc, SetStorageAbsent address inc loc s = None) /\
  (forall address code, SetCodeRead address code s = None) /\
  (forall address, SetCodeAbsent address s = None).
Proof.
  intros Hlim Hend Hslot.
  repeat split; intros; now apply alloc_setRead_limit_zero_panics.
Qed.

(** C10 (code bug): with [limitReads = 0] every read insertion on a new
    cache panics. Once a pending write sits in slot 0 of the shared slice,
    a read no longer panics: the eviction branch of [setRead] takes
    [readQueue.items[0]], which is that write, deletes it from
    [readWrites] and overwrites its write-heap slot. The written account
    is then no longer found, although it is still in [writes], and the
    read item stands in the write queue. *)
Theorem read_limit_zero_evicts_pending_write :
  (forall degree limitWrites s, NewStateCache degree 0 limitWrites = Some s ->
     (forall address account, SetAccountRead address account s = None) /\
     (forall address, SetAccountAbsent address s = None) /\
     (forall address inc loc value, SetStorageRead address inc loc value s = None) /\
     (forall address inc loc, SetStorageAbsent address inc loc s = None) /\
     (forall address code, SetCodeRead address code s = None) /\
     (forall address, SetCodeAbsent address s = None)) /\
  exists s', runNew 32 0 1 (SetAccountWrite addr1 accA ;;; SetAccountRead addr2 accA') = Some (tt, s') /\
    resultOf (GetAccount addr2 s') = Some (Some accA', true) /\
    resultOf (GetAccount addr1 s') = Some (None, false) /\
    lookupWrites s' (accountKey addr1) = Some (Some 0%nat) /\
    heapItems s' = [Some 1%nat] /\ writeStart s' = 0.
Proof.
  split.
  - intros degree lw s H. unfold NewStateCache in H.
    destruct (degree <=? 1); [discriminate|].
    destruct (_ || _); [discriminate|].
    injection H as <-.
    apply read_limit_zero_panics; [reflexivity | cbn; lia |]. cbn.
    destruct (Z.to_nat _); [left | right]; reflexivity.
  - exists (cacheAfter (runNew 32 0 1 (SetAccountWrite addr1 accA ;;; SetAccountRead addr2 accA'))).
    vm_compute. repeat split.
Qed.

Lemma read_limit_zero_evicts_pending_write_witness :
  SetCodeAbsent addr1 (cacheAfter (runNew 32 0 2 (ret tt))) = None.
Proof.
  assert (H : NewStateCache 32 0 2 = Some (cacheAfter (runNew 32 0 2 (ret tt))))
    by (vm_compute; reflexivity).
  destruct (proj1 read_limit_zero_evicts_pending_write 32 2 _ H) as (_ & _ & _ & _ & _ & H6).
  apply H6.
Defined.

(** C7 (corrected): a tombstoned entry and a missing entry give the same
    lookup result; only a live entry is returned with [true]. *)
Theorem lookup_tombstone_same_as_miss (s s' : StateCache) :
  (forall address, tombstoned s (accountKey address) -> missing s' (accountKey address) ->
     resultOf (GetAccount address s) = resultOf (GetAccount address s')) /\
  (forall address inc loc,
     tombstoned s (storageKey address inc loc) -> missing s' (storageKey address inc loc) ->
     resultOf (GetStorage address inc loc s) = resultOf (GetStorage address inc loc s')) /\
  (forall address, tombstoned s (codeKey address) -> missing s' (codeKey address) ->
     resultOf (GetCode address s) = resultOf (GetCode address s')) /\
  (forall address it a0 acc, live s (accountKey address) it -> body it = AccountBody a0 acc ->
     resultOf (GetAccount address s) = Some (Some acc, true)) /\
  (forall address inc loc it a0 i0 l0 v,
     live s (storageKey address inc loc) it -> body it = StorageBody a0 i0 l0 v ->
     resultOf (GetStorage address inc loc s) = Some (Some v, true)) /\
  (forall address it a0 c, live s (codeKey address) it -> body it = CodeBody a0 c ->
     resultOf (GetCode address s) = Some (c, true)).
Proof.
  unfold tombstoned, missing, live, lookup.
  repeat split.
  - intros address [p [it [Hl [Hp Hd]]]] Hm.
    cbv [GetAccount get BTree_Get bind getS lift deref ret resultOf tget readWritesTree].
    rewrite Hl, Hm, Hp, Hd. reflexivity.
  - intros address inc loc [p [it [Hl [Hp Hd]]]] Hm.
    cbv [GetStorage get BTree_Get bind getS lift deref ret resultOf tget readWritesTree].
    rewrite Hl, Hm, Hp, Hd. reflexivity.
  - intros address [p [it [Hl [Hp Hd]]]] Hm.
    cbv [GetCode get BTree_Get bind getS lift deref ret resultOf tget readWritesTree].
    rewrite Hl, Hm, Hp, Hd. reflexivity.
  - intros address it a0 acc [p [Hl [Hp Hd]]] Hb.
    cbv [GetAccount get BTree_Get bind getS lift deref ret resultOf tget readWritesTree].
    rewrite Hl, Hp, Hd, Hp, Hb. reflexivity.
  - intros address inc loc it a0 i0 l0 v [p [Hl [Hp Hd]]] Hb.
    cbv [GetStorage get BTree_Get bind getS lift deref ret resultOf tget readWritesTree].
    rewrite Hl, Hp, Hd, Hp, Hb. reflexivity.
  - intros address it a0 c [p [Hl [Hp Hd]]] Hb.
    cbv [GetCode get BTree_Get bind getS lift deref ret resultOf tget readWritesTree].
    rewrite Hl, Hp, Hd, Hp, Hb. reflexivity.
Qed.

Lemma lookup_tombstone_same_as_miss_witness :
  tombstoned (cacheAfter (runNew 32 2 2 (SetAccountAbsent addr1))) (accountKey addr1) /\
  missing (cacheAfter (runNew 32 2 2 (ret tt))) (accountKey addr1) /\
  resultOf (GetAccount addr1 (cacheAfter (runNew 32 2 2 (SetAccountAbsent addr1))))
    = resultOf (GetAccount addr1 (cacheAfter (runNew 32 2 2 (ret tt)))).
Proof.
  assert (Ht : tombstoned (cacheAfter (runNew 32 2 2 (SetAccountAbsent addr1)))
                          (accountKey addr1)).
  { exists 0%nat, (mkItem (AccountBody addr1 emptyAccount) 0 0 DeletedFlag).
    split; [reflexivity | split; reflexivity]. }
  assert (Hm : missing (cacheAfter (runNew 32 2 2 (ret tt))) (accountKey addr1))
    by reflexivity.
  split; [exact Ht | split; [exact Hm |]].
  destruct (lookup_tombstone_same_as_miss
              (cacheAfter (runNew 32 2 2 (SetAccountAbsent addr1)))
              (cacheAfter (runNew 32 2 2 (ret tt)))) as [HA _].
  exact (HA addr1 Ht Hm).
Defined.

(** C7: the claim's three outcomes are two: after [SetXAbsent] the lookup
    gives exactly what it gives on a new cache. *)
Lemma tombstone_indistinguishable_from_miss :
  resultOf (runNew 32 2 2 (SetAccountAbsent addr1 ;;; GetAccount addr1))
    = resultOf (runNew 32 2 2 (GetAccount addr1)) /\
  resultOf (runNew 32 2 2 (SetStorageAbsent addr1 1 loc1 ;;; GetStorage addr1 1 loc1))
    = resultOf (runNew 32 2 2 (GetStorage addr1 1 loc1)) /\
  resultOf (runNew 32 2 2 (SetCodeAbsent addr1 ;;; GetCode addr1))
    = resultOf (runNew 32 2 2 (GetCode addr1)).
Proof. vm_compute. repeat split. Qed.

(** * Further properties of the code *)

(** ** Frame lemmas *)

Lemma bind_inv {A B} (m : M A) (k : A -> M B) s b s'' :
  bind m k s = Some (b, s'') -> exists a s1, m s = Some (a, s1) /\ k a s1 = Some (b, s'').
Proof. unfold bind. destruct (m s) as [[a s1]|]; [eauto|discriminate]. Qed.

Lemma heap_frame_refl s : heap_frame s s.
Proof. unfold heap_frame; repeat split. Qed.

Lemma heap_frame_trans s1 s2 s3 : heap_frame s1 s2 -> heap_frame s2 s3 -> heap_frame s1 s3.
Proof. unfold heap_frame. intuition congruence. Qed.

Lemma tree_frame_refl s : tree_frame s s.
Proof. unfold tree_frame; repeat split. Qed.

Lemma tree_frame_trans s1 s2 s3 : tree_frame s1 s2 -> tree_frame s2 s3 -> tree_frame s1 s3.
Proof. unfold tree_frame. intuition congruence. Qed.

Lemma heap_frame_tree s s' : heap_frame s s' -> tree_frame s s'.
Proof.
  unfold heap_frame, tree_frame, itemKeys. intros [H [H1 [H2 _]]].
  repeat split; auto.
  replace (fun it => keyOf (body it)) with (fun it => keyOf (fst (strip it))) by reflexivity.
  rewrite <- (map_map strip (fun x => keyOf (fst x))), H.
  now rewrite map_map.
Qed.

(** The relations [Preserves] is used with: reflexive and transitive. *)
Class FrameRel (R : StateCache -> StateCache -> Prop) := {
  fr_refl : forall s, R s s;
  fr_trans : forall s1 s2 s3, R s1 s2 -> R s2 s3 -> R s1 s3
}.

#[export] Instance heap_frame_rel : FrameRel heap_frame :=
  {| fr_refl := heap_frame_refl; fr_trans := heap_frame_trans |}.
#[export] Instance tree_frame_rel : FrameRel tree_frame :=
  {| fr_refl := tree_frame_refl; fr_trans := tree_frame_trans |}.

Section Preservation.
Context {R : StateCache -> StateCache -> Prop} `{FrameRel R}.

Lemma Preserves_ret {A} (a : A) : Preserves R (ret a).
Proof. intros s x s' E. inversion E; subst. apply fr_refl. Qed.

Lemma Preserves_panic {A} : Preserves R (@panic A).
Proof. intros s x s' E. discriminate. Qed.

Lemma Preserves_getS : Preserves R getS.
Proof. intros s x s' E. inversion E; subst. apply fr_refl. Qed.

Lemma Preserves_lift {A} (o : option A) : Preserves R (lift o).
Proof. intros s x s' E. unfold lift in E. destruct o; inversion E; subst; apply fr_refl. Qed.

Lemma Preserves_bind {A B} (m : M A) (k : A -> M B) :
  Preserves R m -> (forall a, Preserves R (k a)) -> Preserves R (bind m k).
Proof.
  intros Hm Hk s b s'' E. apply bind_inv in E as [a [s1 [E1 E2]]].
  eapply fr_trans; [eapply Hm; eauto | eapply Hk; eauto].
Qed.

Lemma Preserves_if {A} (b : bool) (m1 m2 : M A) :
  Preserves R m1 -> Preserves R m2 -> Preserves R (if b then m1 else m2).
Proof. destruct b; auto. Qed.

Lemma Preserves_get_put (g : StateCache -> StateCache) :
  (forall s, R s (g s)) -> Preserves R (s <- getS ;; putS (g s)).
Proof. intros Hg s a s' E. unfold bind, getS, putS in E. inversion E; subst. apply Hg. Qed.

Lemma Preserves_get_put_then {A} (g : StateCache -> StateCache) (k : StateCache -> unit -> M A) :
  (forall s, R s (g s)) -> (forall s u, Preserves R (k s u)) ->
  Preserves R (s <- getS ;; bind (putS (g s)) (k s)).
Proof.
  intros Hg Hk s a s' E. unfold bind, getS, putS in E.
  eapply fr_trans; [apply Hg | eapply Hk; exact E].
Qed.
End Preservation.

Create HintDb frame.
#[export] Hint Resolve heap_frame_refl heap_frame_trans tree_frame_refl tree_frame_trans : frame.

(** Decompose an action into steps that preserve the frame. *)
Ltac preserve :=
  repeat match goal with
  | |- Preserves _ (bind getS (fun _ => putS _)) =>
      apply Preserves_get_put; intro; unfold heap_frame, tree_frame; cbn; repeat split
  | |- Preserves _ (bind getS (fun s => bind (putS (@?g s)) (@?k s))) =>
      apply (Preserves_get_put_then g k);
      [intro; unfold heap_frame, tree_frame; cbn; repeat split | intros ? ?]
  | |- Preserves _ (bind _ _) => apply Preserves_bind; [|intro]
  | |- Preserves _ (if _ then _ else _) => apply Preserves_if
  | |- Preserves _ (ret _) => apply Preserves_ret
  | |- Preserves _ panic => apply Preserves_panic
  | |- Preserves _ getS => apply Preserves_getS
  | |- Preserves _ (lift _) => apply Preserves_lift
  | |- Preserves _ (match ?x with _ => _ end) => destruct x
  | |- Preserves _ _ => solve [eauto with frame]
  end.

Lemma map_strip_replace (st : list CacheItem) (p : nat) it it' :
  nth_error st p = Some it -> strip it' = strip it ->
  map strip (replace_nth st p it') = map strip st.
Proof.
  revert p; induction st as [|x st IH]; intros [|p]; simpl; try discriminate.
  - intros H E. inversion H; subst. now rewrite E.
  - intros H E. now rewrite (IH p H E).
Qed.

Lemma update_heap_frame (p : ptr) (f : CacheItem -> CacheItem) :
  (forall it, strip (f it) = strip it) ->
  (forall s a s', update p f s = Some (a, s') -> heap_frame s s').
Proof.
  intros Hf s a s'. unfold update, bind, deref, getS, lift, putS. cbn.
  destruct (nth_error (store s) p) eqn:E; [|intro Hc; discriminate Hc].
  intro H; inversion H; subst. unfold heap_frame; cbn.
  repeat split; auto. eapply map_strip_replace; [exact E | apply Hf].
Qed.

Lemma SetQueuePos_heap_frame p v : Preserves heap_frame (SetQueuePos p v).
Proof. intros s a s'. apply update_heap_frame. reflexivity. Qed.

Lemma SetSequence_tree_frame p v : Preserves tree_frame (SetSequence p v).
Proof.
  intros s a s' H. apply heap_frame_tree.
  revert H. apply update_heap_frame. reflexivity.
Qed.

Lemma heap_set_heap_frame i x : Preserves heap_frame (heap_set i x).
Proof.
  intros s a s'. unfold heap_set, slice_set, bind, getS, putS, ret, panic. cbn.
  destruct ((i <? 0) || (Z.of_nat (length (heapItems s)) <=? i));
    [intro Hc; discriminate Hc|].
  intro H; inversion H; subst. unfold heap_frame; cbn. repeat split.
Qed.

Lemma heap_get_pure i : Preserves eq (heap_get i).
Proof.
  intros s a s'. unfold heap_get, slice_get, bind, getS, lift, panic. cbn.
  destruct (i <? 0); [intro Hc; discriminate Hc|].
  destruct (nth_error _ _); intro H; inversion H; auto.
Qed.

Lemma eq_heap_frame {A} (m : M A) : Preserves eq m -> Preserves heap_frame m.
Proof. intros H s a s' E. apply H in E. subst. apply heap_frame_refl. Qed.

Lemma deref_eq p : Preserves eq (deref p).
Proof. intros s a s' H. now apply deref_pure in H as [-> _]. Qed.

Lemma heap_get_heap_frame i : Preserves heap_frame (heap_get i).
Proof. apply eq_heap_frame, heap_get_pure. Qed.

Lemma deref_heap_frame p : Preserves heap_frame (deref p).
Proof. apply eq_heap_frame, deref_eq. Qed.

#[export] Hint Resolve deref_heap_frame heap_get_heap_frame : frame.

Lemma GetSequence_heap_frame p : Preserves heap_frame (GetSequence p).
Proof. unfold GetSequence. preserve. Qed.

Lemma GetQueuePos_heap_frame p : Preserves heap_frame (GetQueuePos p).
Proof. unfold GetQueuePos. preserve. Qed.

Lemma nonnil_heap_frame o : Preserves heap_frame (nonnil o).
Proof. apply Preserves_lift. Qed.

#[export] Hint Resolve SetQueuePos_heap_frame heap_set_heap_frame heap_get_heap_frame
  deref_heap_frame GetSequence_heap_frame GetQueuePos_heap_frame nonnil_heap_frame : frame.

Lemma ReadHeap_Len_heap_frame : Preserves heap_frame ReadHeap_Len.
Proof. unfold ReadHeap_Len. preserve. Qed.
Lemma ReadHeap_Less_heap_frame i j : Preserves heap_frame (ReadHeap_Less i j).
Proof. unfold ReadHeap_Less. preserve. Qed.
Lemma ReadHeap_Swap_heap_frame i j : Preserves heap_frame (ReadHeap_Swap i j).
Proof. unfold ReadHeap_Swap. preserve. Qed.
Lemma ReadHeap_Push_heap_frame x : Preserves heap_frame (ReadHeap_Push x).
Proof. unfold ReadHeap_Push. preserve. Qed.
Lemma ReadHeap_Pop_heap_frame : Preserves heap_frame ReadHeap_Pop.
Proof. unfold ReadHeap_Pop. preserve. Qed.
Lemma WriteHeap_Len_heap_frame : Preserves heap_frame WriteHeap_Len.
Proof. unfold WriteHeap_Len. preserve. Qed.
Lemma WriteHeap_Less_heap_frame i j : Preserves heap_frame (WriteHeap_Less i j).
Proof. unfold WriteHeap_Less. preserve. Qed.
Lemma WriteHeap_Swap_heap_frame i j : Preserves heap_frame (WriteHeap_Swap i j).
Proof. unfold WriteHeap_Swap. preserve. Qed.
Lemma WriteHeap_Push_heap_frame x : Preserves heap_frame (WriteHeap_Push x).
Proof. unfold WriteHeap_Push. preserve. Qed.
Lemma WriteHeap_Pop_heap_frame : Preserves heap_frame WriteHeap_Pop.
Proof. unfold WriteHeap_Pop. preserve. Qed.

#[export] Hint Resolve ReadHeap_Len_heap_frame ReadHeap_Less_heap_frame ReadHeap_Swap_heap_frame
  ReadHeap_Push_heap_frame ReadHeap_Pop_heap_frame WriteHeap_Len_heap_frame
  WriteHeap_Less_heap_frame WriteHeap_Swap_heap_frame WriteHeap_Push_heap_frame
  WriteHeap_Pop_heap_frame : frame.

(** container/heap only calls the interface's methods. *)
Section HeapOps.
Variable h : HeapInterface.
Hypothesis h_len : Preserves heap_frame (hLen h).
Hypothesis h_less : forall i j, Preserves heap_frame (hLess h i j).
Hypothesis h_swap : forall i j, Preserves heap_frame (hSwap h i j).
Hypothesis h_push : forall x, Preserves heap_frame (hPush h x).
Hypothesis h_pop : Preserves heap_frame (hPop h).
#[local] Hint Resolve h_len h_less h_swap h_push h_pop : frame.

Lemma up_loop_heap_frame fuel j : Preserves heap_frame (up_loop h fuel j).
Proof. revert j; induction fuel; intro j; simpl; preserve. Qed.
#[local] Hint Resolve up_loop_heap_frame : frame.

Lemma down_loop_heap_frame fuel i n : Preserves heap_frame (down_loop h fuel i n).
Proof. revert i; induction fuel; intro i; simpl; preserve. Qed.
#[local] Hint Resolve down_loop_heap_frame : frame.

Lemma up_heap_frame j : Preserves heap_frame (up h j).
Proof. unfold up. preserve. Qed.
Lemma down_heap_frame i n : Preserves heap_frame (down h i n).
Proof. unfold down. preserve. Qed.
#[local] Hint Resolve up_heap_frame down_heap_frame : frame.

Lemma init_loop_heap_frame k n : Preserves heap_frame (init_loop h k n).
Proof. induction k; simpl; preserve. Qed.
#[local] Hint Resolve init_loop_heap_frame : frame.

Lemma heap_Init_heap_frame : Preserves heap_frame (heap_Init h).
Proof. unfold heap_Init. preserve. Qed.
Lemma heap_Push_heap_frame x : Preserves heap_frame (heap_Push h x).
Proof. unfold heap_Push. preserve. Qed.
Lemma heap_Pop_heap_frame : Preserves heap_frame (heap_Pop h).
Proof. unfold heap_Pop. preserve. Qed.
Lemma heap_Remove_heap_frame i : Preserves heap_frame (heap_Remove h i).
Proof. unfold heap_Remove. preserve. Qed.
Lemma heap_Fix_heap_frame i : Preserves heap_frame (heap_Fix h i).
Proof. unfold heap_Fix. preserve. Qed.
End HeapOps.

Ltac heap_method := simpl; eauto with frame.

#[export] Hint Extern 2 (Preserves heap_frame (heap_Init ?h)) =>
  apply heap_Init_heap_frame; heap_method : frame.
#[export] Hint Extern 2 (Preserves heap_frame (heap_Push ?h _)) =>
  apply heap_Push_heap_frame; heap_method : frame.
#[export] Hint Extern 2 (Preserves heap_frame (heap_Pop ?h)) =>
  apply heap_Pop_heap_frame; heap_method : frame.
#[export] Hint Extern 2 (Preserves heap_frame (heap_Remove ?h _)) =>
  apply heap_Remove_heap_frame; heap_method : frame.
#[export] Hint Extern 2 (Preserves heap_frame (heap_Fix ?h _)) =>
  apply heap_Fix_heap_frame; heap_method : frame.
#[export] Hint Extern 2 (Preserves heap_frame (hLen ?h)) => heap_method : frame.

(** Extra: [heap.Fix], [heap.Push], [heap.Pop], [heap.Remove] and [heap.Init]
    driven through the [ReadHeap] and [WriteHeap] methods never change any
    item's body or flags, the two trees, the limits or the sequence counter. *)
Lemma queue_ops_heap_frame i x :
  Preserves heap_frame (heap_Fix readQueue i) /\ Preserves heap_frame (heap_Fix writeQueue i) /\
  Preserves heap_frame (heap_Push readQueue x) /\ Preserves heap_frame (heap_Push writeQueue x) /\
  Preserves heap_frame (heap_Pop readQueue) /\ Preserves heap_frame (heap_Pop writeQueue) /\
  Preserves heap_frame (heap_Remove readQueue i) /\ Preserves heap_frame (heap_Remove writeQueue i) /\
  Preserves heap_frame (heap_Init readQueue) /\ Preserves heap_frame (heap_Init writeQueue).
Proof. repeat (apply conj); eauto with frame. Qed.

Lemma eq_refl_rel s : @eq StateCache s s.
Proof. reflexivity. Qed.
Lemma eq_trans_rel (s1 s2 s3 : StateCache) : s1 = s2 -> s2 = s3 -> s1 = s3.
Proof. congruence. Qed.
#[export] Instance eq_frame_rel : FrameRel eq :=
  {| fr_refl := eq_refl_rel; fr_trans := eq_trans_rel |}.
#[export] Hint Resolve deref_eq heap_get_pure : frame.

(** ** The B-tree model *)

Lemma spec_key_compare_refl k : spec_key_compare k k = Eq.
Proof. now apply spec_key_compare_eq. Qed.

Lemma body_Less_keys a a' b b' :
  keyOf a = keyOf a' -> keyOf b = keyOf b' -> body_Less a b = body_Less a' b'.
Proof. intros Ha Hb. rewrite !body_Less_spec, Ha, Hb. reflexivity. Qed.

Lemma body_Less_same_key a b : keyOf a = keyOf b -> body_Less a b = false.
Proof. intro E. rewrite body_Less_spec, E, spec_key_compare_refl. reflexivity. Qed.

Lemma equiv_key_keys a a' b b' :
  keyOf a = keyOf a' -> keyOf b = keyOf b' -> equiv_key a b = equiv_key a' b'.
Proof. intros Ha Hb. unfold equiv_key. now rewrite (body_Less_keys a a' b b'), (body_Less_keys b b' a a'). Qed.

Lemma equiv_key_same a b : keyOf a = keyOf b -> equiv_key a b = true.
Proof.
  intro E. unfold equiv_key. rewrite (body_Less_same_key a b E), (body_Less_same_key b a (eq_sym E)).
  reflexivity.
Qed.

Lemma itemKeys_nth st st' q it :
  itemKeys st = itemKeys st' -> nth_error st q = Some it ->
  exists it', nth_error st' q = Some it' /\ keyOf (body it') = keyOf (body it).
Proof.
  unfold itemKeys. revert st' q; induction st as [|x st IH]; intros [|y st'] [|q] E H;
    simpl in *; try discriminate; inversion E; subst.
  - inversion H; subst. eauto.
  - eauto.
Qed.

Lemma itemKeys_nth_None st st' q :
  itemKeys st = itemKeys st' -> nth_error st q = None -> nth_error st' q = None.
Proof.
  unfold itemKeys. revert st' q; induction st as [|x st IH]; intros [|y st'] [|q] E H;
    simpl in *; try discriminate; inversion E; subst; eauto.
Qed.

(** Lookups only look at the keys of the items. *)
Lemma bt_find_keys st st' t k :
  itemKeys st = itemKeys st' -> bt_find st t k = bt_find st' t k.
Proof.
  intro E. induction t as [|q t IH]; simpl; auto.
  destruct (nth_error st q) as [it|] eqn:Hq.
  - destruct (itemKeys_nth st st' q it E Hq) as [it' [-> Hk]].
    rewrite (equiv_key_keys k k (body it') (body it) eq_refl Hk), IH. reflexivity.
  - now rewrite (itemKeys_nth_None st st' q E Hq).
Qed.

Lemma bt_find_key_congr st t k k' :
  keyOf k = keyOf k' -> bt_find st t k = bt_find st t k'.
Proof.
  intro E. induction t as [|q t IH]; simpl; auto.
  destruct (nth_error st q) as [it|]; auto.
  now rewrite (equiv_key_keys k k' (body it) (body it) E eq_refl), IH.
Qed.

Lemma bt_find_app st x t k r :
  bt_find st t k = Some r -> bt_find (st ++ x) t k = Some r.
Proof.
  induction t as [|q t IH]; simpl; auto.
  destruct (nth_error st q) as [it|] eqn:Hq; [|discriminate].
  rewrite nth_error_app1 by (apply nth_error_Some; congruence). rewrite Hq.
  destruct (equiv_key k (body it)); auto.
Qed.

(** Round trip: an item inserted with ReplaceOrInsert is found again. *)
Lemma bt_insert_find st t t' p it :
  nth_error st p = Some it -> bt_insert st t p (body it) = Some t' ->
  bt_find st t' (body it) = Some (Some p).
Proof.
  intro Hp. revert t'. induction t as [|q t IH]; intros t' Hi; simpl in Hi.
  - inversion Hi; subst. simpl. rewrite Hp, equiv_key_same; auto.
  - destruct (nth_error st q) as [itq|] eqn:Hq; [|discriminate].
    destruct (body_Less (body it) (body itq)) eqn:L1.
    + inversion Hi; subst. simpl. rewrite Hp, equiv_key_same; auto.
    + destruct (body_Less (body itq) (body it)) eqn:L2.
      * destruct (bt_insert st t p (body it)) as [t1|] eqn:Hi'; simpl in Hi; [|discriminate].
        inversion Hi; subst. simpl. rewrite Hq.
        unfold equiv_key. rewrite L2, andb_false_r. now apply IH.
      * inversion Hi; subst. simpl. rewrite Hp, equiv_key_same; auto.
Qed.


Lemma BTree_Get_eq t k : Preserves eq (BTree_Get t k).
Proof. unfold BTree_Get. preserve. Qed.
#[export] Hint Resolve BTree_Get_eq : frame.

Lemma get_eq k : Preserves eq (get k).
Proof. unfold get. preserve. Qed.
#[export] Hint Resolve get_eq : frame.

(** ** Lookups *)

(** [GetAccount], [GetStorage] and [GetCode] never change the cache: when
    they return, the state is the one they started from. *)
Theorem lookups_read_only s address incarnation location :
  (forall r s', GetAccount address s = Some (r, s') -> s' = s) /\
  (forall r s', GetStorage address incarnation location s = Some (r, s') -> s' = s) /\
  (forall r s', GetCode address s = Some (r, s') -> s' = s).
Proof.
  assert (HA : Preserves eq (GetAccount address)) by (unfold GetAccount; preserve).
  assert (HS : Preserves eq (GetStorage address incarnation location))
    by (unfold GetStorage; preserve).
  assert (HC : Preserves eq (GetCode address)) by (unfold GetCode; preserve).
  repeat split; intros r s' E; symmetry; eauto.
Qed.

(** ** Read insertions of a cached key *)

Lemma alloc_setRead_cached_panics (it : CacheItem) (s : StateCache) (p : ptr) :
  lookup s (body it) = Some (Some p) -> (x <- alloc it ;; setRead x) s = None.
Proof.
  intro Hl. unfold lookup in Hl.
  unfold alloc, setRead, deref, BTree_Get, bind, getS, putS, ret, lift. cbn.
  rewrite nth_error_app2, Nat.sub_diag by lia. cbn.
  rewrite (bt_find_app _ [it] _ _ _ Hl). reflexivity.
Qed.

(** [SetAccountRead] and [SetAccountAbsent] of an address that is already
    in [readWrites] panic ("Get(item) != nil"), whatever the value. *)
Theorem account_read_of_cached_key_panics s address account p :
  lookup s (accountKey address) = Some (Some p) ->
  SetAccountRead address account s = None /\ SetAccountAbsent address s = None.
Proof.
  intro Hl. split; apply (alloc_setRead_cached_panics _ _ p); simpl;
    unfold lookup in *; rewrite <- Hl; now apply bt_find_key_congr.
Qed.

(** [SetStorageRead] and [SetStorageAbsent] of a slot that is already in
    [readWrites] panic. *)
Theorem storage_read_of_cached_key_panics s address incarnation location value p :
  lookup s (storageKey address incarnation location) = Some (Some p) ->
  SetStorageRead address incarnation location value s = None /\
  SetStorageAbsent address incarnation location s = None.
Proof.
  intro Hl. split; apply (alloc_setRead_cached_panics _ _ p); simpl;
    unfold lookup in *; rewrite <- Hl; now apply bt_find_key_congr.
Qed.

(** [SetCodeRead] and [SetCodeAbsent] of an address whose code is already
    in [readWrites] panic. *)
Theorem code_read_of_cached_key_panics s address code p :
  lookup s (codeKey address) = Some (Some p) ->
  SetCodeRead address code s = None /\ SetCodeAbsent address s = None.
Proof.
  intro Hl. split; apply (alloc_setRead_cached_panics _ _ p); simpl;
    unfold lookup in *; rewrite <- Hl; now apply bt_find_key_congr.
Qed.

(** ** The write budget *)

Lemma BTree_Get_result t k s r :
  bt_find (store s) (tget t s) k = Some r -> BTree_Get t k s = Some (r, s).
Proof. intro E. unfold BTree_Get, bind, getS, lift. cbn. now rewrite E. Qed.

Lemma checkWriteBudget_full_panics s :
  limitWrites s <= heapLen s - writeStart s -> checkWriteBudget s = None.
Proof.
  intro Hb. unfold checkWriteBudget, hLen, writeQueue, WriteHeap_Len, bind, getS, ret. cbn.
  apply Z.leb_le in Hb. now rewrite Hb.
Qed.

(** A write or delete of an account that is in neither tree panics when the
    write queue already holds [limitWrites] entries. *)
Theorem account_write_over_budget_panics s address account :
  lookupWrites s (accountKey address) = Some None ->
  lookup s (accountKey address) = Some None ->
  limitWrites s <= heapLen s - writeStart s ->
  SetAccountWrite address account s = None /\ SetAccountDelete address s = None.
Proof.
  unfold lookupWrites, lookup, accountKey. intros Hw Hr Hb.
  split; [unfold SetAccountWrite|unfold SetAccountDelete]; cbv zeta;
    rewrite (bind_Some _ _ _ _ _ (BTree_Get_result writesTree _ _ _ Hw));
    rewrite (bind_Some _ _ _ _ _ (BTree_Get_result readWritesTree _ _ _ Hr));
    now apply bind_None, checkWriteBudget_full_panics.
Qed.

(** The same for a storage slot. *)
Theorem storage_write_over_budget_panics s address incarnation location value :
  lookupWrites s (storageKey address incarnation location) = Some None ->
  lookup s (storageKey address incarnation location) = Some None ->
  limitWrites s <= heapLen s - writeStart s ->
  SetStorageWrite address incarnation location value s = None /\
  SetStorageDelete address incarnation location s = None.
Proof.
  unfold lookupWrites, lookup. intros Hw Hr Hb.
  split; [unfold SetStorageWrite|unfold SetStorageDelete]; cbv zeta;
    rewrite (bind_Some _ _ _ _ _ (BTree_Get_result writesTree _ _ _ Hw));
    rewrite (bind_Some _ _ _ _ _ (BTree_Get_result readWritesTree _ _ _ Hr));
    now apply bind_None, checkWriteBudget_full_panics.
Qed.

(** The same for the code of an address. *)
Theorem code_write_over_budget_panics s address code :
  lookupWrites s (codeKey address) = Some None ->
  lookup s (codeKey address) = Some None ->
  limitWrites s <= heapLen s - writeStart s ->
  SetCodeWrite address code s = None /\ SetCodeDelete address s = None.
Proof.
  unfold lookupWrites, lookup. intros Hw Hr Hb.
  split; [unfold SetCodeWrite|unfold SetCodeDelete]; cbv zeta;
    rewrite (bind_Some _ _ _ _ _ (BTree_Get_result writesTree _ _ _ Hw));
    rewrite (bind_Some _ _ _ _ _ (BTree_Get_result readWritesTree _ _ _ Hr));
    now apply bind_None, checkWriteBudget_full_panics.
Qed.

(** ** Tracking one item through an operation *)

Lemma strip_nth st st' p it :
  map strip st' = map strip st -> nth_error st p = Some it ->
  exists it', nth_error st' p = Some it' /\ body it' = body it /\ flags it' = flags it.
Proof.
  intros E H. pose proof (f_equal (fun l => nth_error l p) E) as E'. cbv beta in E'.
  rewrite !nth_error_map, H in E'.
  destruct (nth_error st' p) as [it'|]; [|discriminate].
  inversion E' as [E'']. unfold strip in E''. inversion E''. eauto.
Qed.

Lemma strip_keys st st' : map strip st' = map strip st -> itemKeys st' = itemKeys st.
Proof.
  unfold itemKeys. intro E.
  replace (fun it => keyOf (body it)) with (fun it => keyOf (fst (strip it))) by reflexivity.
  rewrite <- !(map_map strip (fun x => keyOf (fst x))). now rewrite E.
Qed.

Lemma nth_replace_same {A} (l : list A) n x y :
  nth_error l n = Some x -> nth_error (replace_nth l n y) n = Some y.
Proof.
  revert n; induction l as [|z l IH]; intros [|n]; simpl; try discriminate; auto.
Qed.

Lemma nth_replace_lt {A} (l : list A) n m y :
  (m < length l)%nat -> m <> n -> nth_error (replace_nth l n y) m = nth_error l m.
Proof.
  revert n m; induction l as [|z l IH]; intros [|n] [|m]; simpl; intros; auto; try lia.
  apply IH; lia.
Qed.

Lemma itemKeys_replace st p it it' :
  nth_error st p = Some it -> keyOf (body it') = keyOf (body it) ->
  itemKeys (replace_nth st p it') = itemKeys st.
Proof.
  unfold itemKeys. revert p; induction st as [|x st IH]; intros [|p]; simpl; try discriminate.
  - intros H E. inversion H; subst. now rewrite E.
  - intros H E. now rewrite (IH p H E).
Qed.

Lemma update_spec p f s u s' :
  update p f s = Some (u, s') ->
  exists it, nth_error (store s) p = Some it /\ s' = with_store s (replace_nth (store s) p (f it)).
Proof.
  unfold update, bind, deref, getS, lift, putS. cbn.
  destruct (nth_error (store s) p) eqn:E; intro H; inversion H; subst; eauto.
Qed.

Lemma BTree_Get_spec t k s r s' :
  BTree_Get t k s = Some (r, s') -> s' = s /\ bt_find (store s) (tget t s) k = Some r.
Proof.
  unfold BTree_Get, bind, getS, lift. cbn.
  destruct (bt_find _ _ _); intro H; inversion H; subst; auto.
Qed.

(** [existing.sequence = sc.sequence; sc.sequence++] *)
Lemma bumpSequence_spec p s u s' :
  bumpSequence p s = Some (u, s') ->
  map strip (store s') = map strip (store s) /\ readWrites s' = readWrites s /\
  writes s' = writes s /\ scSequence s' = int64_wrap (scSequence s + 1) /\
  (exists it, nth_error (store s) p = Some it /\
     nth_error (store s') p = Some (mkItem (body it) (scSequence s) (queuePos it) (flags it))).
Proof.
  unfold bumpSequence. intro H.
  apply bind_inv in H as [q [s1 [E1 H]]].
  unfold curSequence, bind, getS, ret in E1. inversion E1; subst.
  apply bind_inv in H as [v [s2 [E2 H]]].
  apply update_spec in E2 as [it [Hp ->]].
  unfold incSequence, bind, getS, putS in H. inversion H; subst. cbn.
  repeat split; eauto using map_strip_replace, nth_replace_same.
Qed.

(** The tail of the two branches that find the key: the write queue is
    reordered ([heap.Fix]) or the item moves from the read queue to the
    write queue. *)
Lemma moveToWriteQueue_heap_frame p : Preserves heap_frame (moveToWriteQueue p).
Proof. unfold moveToWriteQueue. preserve. Qed.

Lemma fixWriteQueue_heap_frame p :
  Preserves heap_frame (pos <- GetQueuePos p ;; heap_Fix writeQueue pos).
Proof. preserve. Qed.

(** The branches of the write and delete paths that find the key: a value
    update [v], then [bumpSequence], then the flags, then the queue. *)
Lemma cached_branch (v tail : M unit) p F s s' :
  Preserves heap_frame tail ->
  (v ;;; bumpSequence p ;;; SetFlagsTo p F ;;; tail) s = Some (tt, s') ->
  exists u s1, v s = Some (u, s1) /\
    readWrites s' = readWrites s1 /\ writes s' = writes s1 /\
    itemKeys (store s') = itemKeys (store s1) /\ scSequence s' = int64_wrap (scSequence s1 + 1) /\
    exists it it', nth_error (store s1) p = Some it /\ nth_error (store s') p = Some it' /\
                   body it' = body it /\ flags it' = F.
Proof.
  intros Ht H.
  apply bind_inv in H as [u [s1 [E1 H]]].
  apply bind_inv in H as [u2 [s2 [E2 H]]].
  apply bind_inv in H as [u3 [s3 [E3 H]]].
  apply Ht in H as [Hst [Hrw [Hw [_ [_ Hq]]]]].
  apply bumpSequence_spec in E2 as [Hst2 [Hrw2 [Hw2 [Hq2 [it1 [Hp1 Hp2]]]]]].
  apply update_spec in E3 as [it2 [Hp2' ->]].
  rewrite Hp2 in Hp2'. inversion Hp2'; subst it2. cbn in *.
  exists u, s1. split; auto.
  destruct (strip_nth _ _ p _ Hst (nth_replace_same _ _ _ _ Hp2)) as [it' [Hp' [Hb Hf]]].
  cbn in Hb, Hf.
  repeat split; try congruence.
  - rewrite (strip_keys _ _ Hst), (itemKeys_replace _ _ _ _ Hp2) by reflexivity.
    apply strip_keys, Hst2.
  - exists it1, it'. auto.
Qed.

Lemma deref_spec p s it s' : deref p s = Some (it, s') -> s' = s /\ nth_error (store s) p = Some it.
Proof. apply deref_pure. Qed.

Lemma setAccountValue_spec p a s u s1 :
  setAccountValue p a s = Some (u, s1) ->
  readWrites s1 = readWrites s /\ writes s1 = writes s /\
  itemKeys (store s1) = itemKeys (store s) /\ scSequence s1 = scSequence s /\
  exists it addr, nth_error (store s1) p = Some it /\ body it = AccountBody addr a.
Proof.
  unfold setAccountValue. intro H. apply bind_inv in H as [it [s0 [E H]]].
  apply deref_spec in E as [-> Hp].
  destruct (body it) as [addr a0| | ] eqn:Hb; try discriminate.
  apply update_spec in H as [it0 [Hp0 ->]]. rewrite Hp in Hp0. inversion Hp0; subst it0. cbn.
  repeat split.
  - apply (itemKeys_replace _ _ it); auto. cbn. now rewrite Hb.
  - exists (mkItem (AccountBody addr a) (sequence it) (queuePos it) (flags it)), addr.
    split; [eapply nth_replace_same; eauto | reflexivity].
Qed.

Lemma setStorageValue_spec p value s u s1 :
  setStorageValue p value s = Some (u, s1) ->
  readWrites s1 = readWrites s /\ writes s1 = writes s /\
  itemKeys (store s1) = itemKeys (store s) /\ scSequence s1 = scSequence s /\
  exists it it1 addr inc loc v, nth_error (store s) p = Some it /\
    body it = StorageBody addr inc loc v /\
    nth_error (store s1) p = Some it1 /\ body it1 = StorageBody addr inc loc (go_copy v value).
Proof.
  unfold setStorageValue. intro H. apply bind_inv in H as [it [s0 [E H]]].
  apply deref_spec in E as [-> Hp].
  destruct (body it) as [|addr inc loc v| ] eqn:Hb; try discriminate.
  apply update_spec in H as [it0 [Hp0 ->]]. rewrite Hp in Hp0. inversion Hp0; subst it0. cbn.
  repeat split.
  - apply (itemKeys_replace _ _ it); auto. cbn. now rewrite Hb.
  - exists it, (mkItem (StorageBody addr inc loc (go_copy v value)) (sequence it) (queuePos it) (flags it)),
      addr, inc, loc, v.
    repeat split; auto. eapply nth_replace_same; eauto.
Qed.

Lemma asStorage_spec p s u s1 :
  asStorage p s = Some (u, s1) ->
  s1 = s /\ exists it addr inc loc v, nth_error (store s) p = Some it /\ body it = StorageBody addr inc loc v.
Proof.
  unfold asStorage. intro H. apply bind_inv in H as [it [s0 [E H]]].
  apply deref_spec in E as [-> Hp].
  destruct (body it) as [|addr inc loc v| ] eqn:Hb; try discriminate.
  inversion H; subst. split; eauto 10.
Qed.

Lemma setCodeValue_spec p code s u s1 :
  setCodeValue p code s = Some (u, s1) ->
  readWrites s1 = readWrites s /\ writes s1 = writes s /\
  itemKeys (store s1) = itemKeys (store s) /\ scSequence s1 = scSequence s /\
  exists it addr, nth_error (store s1) p = Some it /\ body it = CodeBody addr code.
Proof.
  unfold setCodeValue. intro H. apply bind_inv in H as [it [s0 [E H]]].
  apply deref_spec in E as [-> Hp].
  destruct (body it) as [| |addr c0] eqn:Hb; try discriminate.
  apply update_spec in H as [it0 [Hp0 ->]]. rewrite Hp in Hp0. inversion Hp0; subst it0. cbn.
  repeat split.
  - apply (itemKeys_replace _ _ it); auto. cbn. now rewrite Hb.
  - exists (mkItem (CodeBody addr code) (sequence it) (queuePos it) (flags it)), addr.
    split; [eapply nth_replace_same; eauto | reflexivity].
Qed.

Lemma ReplaceOrInsert_spec t p s u s' :
  BTree_ReplaceOrInsert t p s = Some (u, s') ->
  exists it t', nth_error (store s) p = Some it /\
    bt_insert (store s) (tget t s) p (body it) = Some t' /\ s' = tset t s t'.
Proof.
  unfold BTree_ReplaceOrInsert, bind, deref, getS, lift, putS. cbn.
  destruct (nth_error (store s) p) as [it|] eqn:E; [|discriminate].
  destruct (bt_insert _ _ _ _) eqn:Ei; intro H; inversion H; subst; eauto.
Qed.

Lemma newWriteItem_spec b f s p s' :
  newWriteItem b f s = Some (p, s') ->
  readWrites s' = readWrites s /\ writes s' = writes s /\
  scSequence s' = int64_wrap (scSequence s + 1) /\
  exists it, store s' = store s ++ [it] /\ p = length (store s) /\
    body it = b /\ flags it = f /\ sequence it = scSequence s.
Proof.
  unfold newWriteItem, curSequence, incSequence, hLen, writeQueue, WriteHeap_Len, alloc,
    bind, getS, putS, ret. cbn. intro H. inversion H; subst. cbn.
  repeat split. eexists; repeat split.
Qed.

Lemma get_found key s p it :
  lookup s key = Some (Some p) -> nth_error (store s) p = Some it ->
  get key s = Some (if HasFlag it DeletedFlag then (None, false) else (Some p, true), s).
Proof.
  unfold lookup. intros Hl Hp.
  unfold get. rewrite (bind_Some _ _ _ _ _ (BTree_Get_result readWritesTree _ _ _ Hl)).
  unfold deref, bind, getS, lift. cbn. rewrite Hp.
  destruct (HasFlag it DeletedFlag); reflexivity.
Qed.

Lemma GetAccount_found address s p it addr a :
  lookup s (accountKey address) = Some (Some p) -> nth_error (store s) p = Some it ->
  body it = AccountBody addr a ->
  GetAccount address s =
    Some (if HasFlag it DeletedFlag then (None, false) else (Some a, true), s).
Proof.
  intros Hl Hp Hb. unfold GetAccount.
  rewrite (bind_Some _ _ _ _ _ (get_found _ _ _ _ Hl Hp)).
  destruct (HasFlag it DeletedFlag); [reflexivity|].
  unfold deref, bind, getS, lift. cbn. rewrite Hp, Hb. reflexivity.
Qed.

Lemma GetStorage_found address incarnation location s p it addr inc loc v :
  lookup s (storageKey address incarnation location) = Some (Some p) ->
  nth_error (store s) p = Some it -> body it = StorageBody addr inc loc v ->
  GetStorage address incarnation location s =
    Some (if HasFlag it DeletedFlag then (None, false) else (Some v, true), s).
Proof.
  intros Hl Hp Hb. unfold GetStorage.
  rewrite (bind_Some _ _ _ _ _ (get_found _ _ _ _ Hl Hp)).
  destruct (HasFlag it DeletedFlag); [reflexivity|].
  unfold deref, bind, getS, lift. cbn. rewrite Hp, Hb. reflexivity.
Qed.

Lemma GetCode_found address s p it addr c :
  lookup s (codeKey address) = Some (Some p) -> nth_error (store s) p = Some it ->
  body it = CodeBody addr c ->
  GetCode address s =
    Some (if HasFlag it DeletedFlag then (None, true) else (c, true), s).
Proof.
  intros Hl Hp Hb. unfold GetCode.
  rewrite (bind_Some _ _ _ _ _ (get_found _ _ _ _ Hl Hp)).
  destruct (HasFlag it DeletedFlag); [reflexivity|].
  unfold deref, bind, getS, lift. cbn. rewrite Hp, Hb. reflexivity.
Qed.

(** After the two lookups of a write path have found [q] (in [writes], or
    in [readWrites] only), [readWrites] still finds [q] in the new state. *)
Lemma lookup_after_cached s s1 s' key q :
  lookup s key = Some (Some q) ->
  readWrites s1 = readWrites s -> itemKeys (store s1) = itemKeys (store s) ->
  readWrites s' = readWrites s1 -> itemKeys (store s') = itemKeys (store s1) ->
  lookup s' key = Some (Some q).
Proof.
  unfold lookup. intros Hl Hr1 Hk1 Hr Hk.
  rewrite Hr, Hr1, (bt_find_keys (store s') (store s)); auto. congruence.
Qed.

Lemma pushWriteQueue_heap_frame x : Preserves heap_frame (heap_Push writeQueue x).
Proof. eauto with frame. Qed.

(** The fresh path of the account write and delete: the new item is found
    in [readWrites] at the end. *)
Lemma fresh_account_post b f s s' :
  (checkWriteBudget ;;;
   aci <- newWriteItem b f ;;
   heap_Push writeQueue aci ;;;
   BTree_ReplaceOrInsert readWritesTree aci ;;;
   BTree_ReplaceOrInsert writesTree aci) s = Some (tt, s') ->
  exists p it, bt_find (store s') (readWrites s') b = Some (Some p) /\
    nth_error (store s') p = Some it /\ body it = b /\ flags it = f.
Proof.
  intro H.
  apply bind_inv in H as (u1 & s1 & E1 & H).
  apply bind_inv in H as (p & s2 & E2 & H).
  apply bind_inv in H as (u3 & s3 & E3 & H).
  apply bind_inv in H as (u4 & s4 & E4 & H).
  apply newWriteItem_spec in E2 as (_ & _ & _ & it & Hst2 & -> & Hb & Hf & _).
  assert (Hp2 : nth_error (store s2) (length (store s1)) = Some it)
    by (rewrite Hst2, nth_error_app2, Nat.sub_diag by lia; reflexivity).
  apply pushWriteQueue_heap_frame in E3 as [Hst3 _].
  destruct (strip_nth _ _ _ _ Hst3 Hp2) as (it3 & Hp3 & Hb3 & Hf3).
  apply ReplaceOrInsert_spec in E4 as (it4 & t' & Hp4 & Hi & ->).
  rewrite Hp3 in Hp4. inversion Hp4; subst it4. cbn in Hi.
  apply ReplaceOrInsert_spec in H as (it5 & t'' & _ & _ & ->). cbn.
  exists (length (store s1)), it3. rewrite <- Hb, <- Hb3.
  repeat split; auto; [eapply bt_insert_find; eauto | congruence].
Qed.

(** Round trip: once [SetAccountWrite(address, account)] has returned,
    [GetAccount(address)] returns [account], found.  The one assumption:
    an entry of [writes] for the address is also the entry of
    [readWrites]. *)
Theorem account_write_then_get s address account s' :
  (forall q, lookupWrites s (accountKey address) = Some (Some q) ->
             lookup s (accountKey address) = Some (Some q)) ->
  SetAccountWrite address account s = Some (tt, s') ->
  GetAccount address s' = Some ((Some account, true), s').
Proof.
  intros Hinc H. unfold SetAccountWrite in H. cbv zeta in H.
  apply bind_inv in H as [r [s0 [E H]]]. apply BTree_Get_spec in E as [-> Ew]. cbv [tget writesTree readWritesTree] in Ew.
  destruct r as [q|]; cbv beta iota in H.
  - apply cached_branch in H as (u & s1 & Ev & Hrw & Hw & Hk & Hq & it & it' & Hp & Hp' & Hb & Hf);
      [|apply fixWriteQueue_heap_frame].
    apply setAccountValue_spec in Ev as (Hrw1 & Hw1 & Hk1 & Hq1 & it1 & addr & Hp1 & Hb1).
    rewrite Hp1 in Hp. inversion Hp; subst it1.
    rewrite (GetAccount_found address s' q it' addr account); [ | | exact Hp' | congruence].
    + unfold HasFlag. rewrite Hf. reflexivity.
    + eapply lookup_after_cached; eauto; apply Hinc; exact Ew.
  - apply bind_inv in H as [r [s0 [E H]]]. apply BTree_Get_spec in E as [-> Er]. cbv [tget writesTree readWritesTree] in Er.
    destruct r as [q|]; cbv beta iota in H.
    + apply cached_branch in H as (u & s1 & Ev & Hrw & Hw & Hk & Hq & it & it' & Hp & Hp' & Hb & Hf);
        [|apply moveToWriteQueue_heap_frame].
      apply setAccountValue_spec in Ev as (Hrw1 & Hw1 & Hk1 & Hq1 & it1 & addr & Hp1 & Hb1).
      rewrite Hp1 in Hp. inversion Hp; subst it1.
      rewrite (GetAccount_found address s' q it' addr account); [ | | exact Hp' | congruence].
      * unfold HasFlag. rewrite Hf. reflexivity.
      * eapply lookup_after_cached; eauto.
    + apply fresh_account_post in H as (p & it & Hl & Hp & Hb & Hf).
      rewrite (GetAccount_found address s' p it (go_copy zeroAddress address) account); [ | | exact Hp | exact Hb].
      * unfold HasFlag. rewrite Hf. reflexivity.
      * unfold lookup. rewrite <- Hl. now apply bt_find_key_congr.
Qed.

(** Round trip: once [SetAccountDelete(address)] has returned,
    [GetAccount(address)] reports the account as not found, under the same
    assumption. *)
Theorem account_delete_then_get s address s' :
  (forall q, lookupWrites s (accountKey address) = Some (Some q) ->
             lookup s (accountKey address) = Some (Some q)) ->
  SetAccountDelete address s = Some (tt, s') ->
  GetAccount address s' = Some ((None, false), s').
Proof.
  intros Hinc H. unfold SetAccountDelete in H. cbv zeta in H.
  apply bind_inv in H as [r [s0 [E H]]]. apply BTree_Get_spec in E as [-> Ew]. cbv [tget writesTree readWritesTree] in Ew.
  destruct r as [q|]; cbv beta iota in H.
  - apply cached_branch in H as (u & s1 & Ev & Hrw & Hw & Hk & Hq & it & it' & Hp & Hp' & Hb & Hf);
      [|apply fixWriteQueue_heap_frame].
    apply setAccountValue_spec in Ev as (Hrw1 & Hw1 & Hk1 & Hq1 & it1 & addr & Hp1 & Hb1).
    rewrite Hp1 in Hp. inversion Hp; subst it1.
    rewrite (GetAccount_found address s' q it' addr emptyAccount); [ | | exact Hp' | congruence].
    + unfold HasFlag. rewrite Hf. reflexivity.
    + eapply lookup_after_cached; eauto; apply Hinc; exact Ew.
  - apply bind_inv in H as [r [s0 [E H]]]. apply BTree_Get_spec in E as [-> Er]. cbv [tget writesTree readWritesTree] in Er.
    destruct r as [q|]; cbv beta iota in H.
    + apply cached_branch in H as (u & s1 & Ev & Hrw & Hw & Hk & Hq & it & it' & Hp & Hp' & Hb & Hf);
        [|apply moveToWriteQueue_heap_frame].
      apply setAccountValue_spec in Ev as (Hrw1 & Hw1 & Hk1 & Hq1 & it1 & addr & Hp1 & Hb1).
      rewrite Hp1 in Hp. inversion Hp; subst it1.
      rewrite (GetAccount_found address s' q it' addr emptyAccount); [ | | exact Hp' | congruence].
      * unfold HasFlag. rewrite Hf. reflexivity.
      * eapply lookup_after_cached; eauto.
    + apply fresh_account_post in H as (p & it & Hl & Hp & Hb & Hf).
      rewrite (GetAccount_found address s' p it (go_copy zeroAddress address) emptyAccount); [ | | exact Hp | exact Hb].
      * unfold HasFlag. rewrite Hf. reflexivity.
      * unfold lookup. rewrite <- Hl. now apply bt_find_key_congr.
Qed.

(** The write and delete paths first look in [writes], then in
    [readWrites]; when [readWrites] finds [p] and [writes] finds nothing
    or [p], one of the two cached branches runs on [p]. *)
Lemma write_dispatch key (B1 B2 : ptr -> M unit) (B3 : M unit) s p s' :
  lookup s key = Some (Some p) ->
  (forall q, lookupWrites s key = Some (Some q) -> q = p) ->
  (item <- BTree_Get writesTree key ;;
   match item with
   | Some e => B1 e
   | None =>
       item <- BTree_Get readWritesTree key ;;
       match item with Some e => B2 e | None => B3 end
   end) s = Some (tt, s') ->
  B1 p s = Some (tt, s') \/ B2 p s = Some (tt, s').
Proof.
  intros Hl Hw H.
  apply bind_inv in H as [r [s0 [E H]]]. apply BTree_Get_spec in E as [-> Ew].
  destruct r as [q|].
  - left. rewrite <- (Hw q Ew). exact H.
  - apply bind_inv in H as [r [s0 [E H]]]. apply BTree_Get_spec in E as [-> Er].
    cbv [tget readWritesTree lookup] in Er, Hl. rewrite Hl in Er. inversion Er; subst.
    right. exact H.
Qed.

(** A storage slot already cached in [readWrites] with value [v]: once
    [SetStorageWrite] has returned, [GetStorage] returns the 32-byte slot
    [v] overwritten by [copy] with the new value; once [SetStorageDelete]
    has returned, [GetStorage] reports the slot as not found.  Assumption:
    an entry of [writes] for the slot is the entry of [readWrites]. *)
Theorem storage_cached_write_then_get s address incarnation location value p it addr inc loc v :
  lookup s (storageKey address incarnation location) = Some (Some p) ->
  nth_error (store s) p = Some it -> body it = StorageBody addr inc loc v ->
  (forall q, lookupWrites s (storageKey address incarnation location) = Some (Some q) -> q = p) ->
  (forall s', SetStorageWrite address incarnation location value s = Some (tt, s') ->
     GetStorage address incarnation location s' = Some ((Some (go_copy v value), true), s')) /\
  (forall s', SetStorageDelete address incarnation location s = Some (tt, s') ->
     GetStorage address incarnation location s' = Some ((None, false), s')).
Proof.
  intros Hl Hp Hb Hw. split; intros s' H.
  - unfold SetStorageWrite in H. cbv zeta in H.
    apply (write_dispatch _ _ _ _ s p s' Hl Hw) in H.
    destruct H as [H|H];
      (apply cached_branch in H as (u & s1 & Ev & Hrw & Hwr & Hk & Hq & it1 & it' & Hp1 & Hp' & Hb' & Hf);
       [| first [apply fixWriteQueue_heap_frame | apply moveToWriteQueue_heap_frame]]);
      apply setStorageValue_spec in Ev
        as (Hrw1 & Hw1 & Hk1 & Hq1 & it0 & it2 & a0 & i0 & l0 & v0 & Hp0 & Hb0 & Hp2 & Hb2);
      rewrite Hp in Hp0; inversion Hp0; subst it0; rewrite Hb in Hb0; inversion Hb0; subst;
      rewrite Hp2 in Hp1; inversion Hp1; subst it2;
      (rewrite (GetStorage_found address incarnation location s' p it' a0 i0 l0 (go_copy v0 value));
       [ unfold HasFlag; rewrite Hf; reflexivity
       | eapply lookup_after_cached; eauto
       | exact Hp'
       | congruence ]).
  - unfold SetStorageDelete in H. cbv zeta in H.
    apply (write_dispatch _ _ _ _ s p s' Hl Hw) in H.
    destruct H as [H|H];
      (apply cached_branch in H as (u & s1 & Ev & Hrw & Hwr & Hk & Hq & it1 & it' & Hp1 & Hp' & Hb' & Hf);
       [| first [apply fixWriteQueue_heap_frame | apply moveToWriteQueue_heap_frame]]);
      apply asStorage_spec in Ev as [-> _];
      rewrite Hp in Hp1; inversion Hp1; subst it1;
      (rewrite (GetStorage_found address incarnation location s' p it' addr inc loc v);
       [ unfold HasFlag; rewrite Hf; reflexivity
       | eapply lookup_after_cached; eauto
       | exact Hp'
       | congruence ]).
Qed.

(** The code of an address already cached in [readWrites]: once
    [SetCodeWrite] has returned, [GetCode] returns the new code; once
    [SetCodeDelete] has returned, [GetCode] returns no code (and [true]),
    on both cached paths. *)
Theorem code_cached_write_then_get s address code p :
  lookup s (codeKey address) = Some (Some p) ->
  (forall q, lookupWrites s (codeKey address) = Some (Some q) -> q = p) ->
  (forall s', SetCodeWrite address code s = Some (tt, s') ->
     GetCode address s' = Some ((Some code, true), s')) /\
  (forall s', SetCodeDelete address s = Some (tt, s') ->
     GetCode address s' = Some ((None, true), s')).
Proof.
  intros Hl Hw. split; intros s' H.
  - unfold SetCodeWrite in H. cbv zeta in H.
    apply (write_dispatch _ _ _ _ s p s' Hl Hw) in H.
    destruct H as [H|H];
      (apply cached_branch in H as (u & s1 & Ev & Hrw & Hwr & Hk & Hq & it1 & it' & Hp1 & Hp' & Hb' & Hf);
       [| first [apply fixWriteQueue_heap_frame | apply moveToWriteQueue_heap_frame]]);
      apply setCodeValue_spec in Ev as (Hrw1 & Hw1 & Hk1 & Hq1 & it2 & a0 & Hp2 & Hb2);
      rewrite Hp2 in Hp1; inversion Hp1; subst it2;
      (rewrite (GetCode_found address s' p it' a0 (Some code));
       [ unfold HasFlag; rewrite Hf; reflexivity
       | eapply lookup_after_cached; eauto
       | exact Hp'
       | congruence ]).
  - unfold SetCodeDelete in H. cbv zeta in H.
    apply (write_dispatch _ _ _ _ s p s' Hl Hw) in H.
    destruct H as [H|H];
      (apply cached_branch in H as (u & s1 & Ev & Hrw & Hwr & Hk & Hq & it1 & it' & Hp1 & Hp' & Hb' & Hf);
       [| first [apply fixWriteQueue_heap_frame | apply moveToWriteQueue_heap_frame]]);
      apply setCodeValue_spec in Ev as (Hrw1 & Hw1 & Hk1 & Hq1 & it2 & a0 & Hp2 & Hb2);
      rewrite Hp2 in Hp1; inversion Hp1; subst it2;
      (rewrite (GetCode_found address s' p it' a0 None);
       [ unfold HasFlag; rewrite Hf; reflexivity
       | eapply lookup_after_cached; eauto
       | exact Hp'
       | congruence ]).
Qed.

(** ** The sequence counter *)

Lemma seq_eq_refl s : seq_eq s s.
Proof. reflexivity. Qed.
Lemma seq_eq_trans s1 s2 s3 : seq_eq s1 s2 -> seq_eq s2 s3 -> seq_eq s1 s3.
Proof. unfold seq_eq. congruence. Qed.
#[export] Instance seq_eq_rel : FrameRel seq_eq :=
  {| fr_refl := seq_eq_refl; fr_trans := seq_eq_trans |}.

Lemma read_frame_refl s : read_frame s s.
Proof. split; reflexivity. Qed.
Lemma read_frame_trans s1 s2 s3 : read_frame s1 s2 -> read_frame s2 s3 -> read_frame s1 s3.
Proof. unfold read_frame. intuition congruence. Qed.
#[export] Instance read_frame_rel : FrameRel read_frame :=
  {| fr_refl := read_frame_refl; fr_trans := read_frame_trans |}.

Lemma heap_frame_seq_eq {A} (m : M A) : Preserves heap_frame m -> Preserves seq_eq m.
Proof. intros H s a s' E. apply H in E as (_ & _ & _ & _ & _ & E). exact E. Qed.
Lemma heap_frame_read_frame {A} (m : M A) : Preserves heap_frame m -> Preserves read_frame m.
Proof. intros H s a s' E. apply H in E as (_ & _ & Hw & _ & _ & E). split; auto. Qed.
Lemma eq_seq_eq {A} (m : M A) : Preserves eq m -> Preserves seq_eq m.
Proof. intros H s a s' E. apply H in E. subst. reflexivity. Qed.
Lemma eq_read_frame {A} (m : M A) : Preserves eq m -> Preserves read_frame m.
Proof. intros H s a s' E. apply H in E. subst. apply read_frame_refl. Qed.

Lemma update_read_frame p f : Preserves read_frame (update p f).
Proof. intros s a s' E. apply update_spec in E as [it [_ ->]]. split; reflexivity. Qed.
Lemma update_seq_eq p f : Preserves seq_eq (update p f).
Proof. intros s a s' E. apply update_spec in E as [it [_ ->]]. reflexivity. Qed.

Lemma alloc_read_frame it : Preserves read_frame (alloc it).
Proof. intros s a s' E. unfold alloc, bind, getS, putS, ret in E. inversion E; subst. split; reflexivity. Qed.


Lemma ReplaceOrInsert_seq_eq p :
  Preserves seq_eq (BTree_ReplaceOrInsert readWritesTree p) /\
  Preserves seq_eq (BTree_ReplaceOrInsert writesTree p).
Proof.
  split; intros s a s' E; apply ReplaceOrInsert_spec in E as (it & t' & _ & _ & ->); reflexivity.
Qed.

Lemma ReplaceOrInsert_rw_read_frame p : Preserves read_frame (BTree_ReplaceOrInsert readWritesTree p).
Proof. intros s a s' E. apply ReplaceOrInsert_spec in E as (it & t' & _ & _ & ->). split; reflexivity. Qed.

Lemma Delete_rw_read_frame x : Preserves read_frame (BTree_Delete readWritesTree x).
Proof.
  intros s a s'. unfold BTree_Delete, bind, getS, ret. cbn.
  destruct (readWrites s) as [|q t].
  - intro E. inversion E; subst. apply read_frame_refl.
  - unfold nonnil, lift. destruct x as [p|]; [|discriminate].
    unfold deref, bind, getS, lift. cbn.
    destruct (nth_error (store s) p); [|discriminate].
    destruct (bt_remove _ _ _); intro E; inversion E; subst. split; reflexivity.
Qed.

Lemma Delete_rw_seq_eq x : Preserves seq_eq (BTree_Delete readWritesTree x).
Proof. intros s a s' E. now apply Delete_rw_read_frame in E as [E _]. Qed.

Lemma RoI_rw_seq_eq p : Preserves seq_eq (BTree_ReplaceOrInsert readWritesTree p).
Proof. apply ReplaceOrInsert_seq_eq. Qed.
Lemma RoI_w_seq_eq p : Preserves seq_eq (BTree_ReplaceOrInsert writesTree p).
Proof. apply ReplaceOrInsert_seq_eq. Qed.

Lemma alloc_seq_eq it : Preserves seq_eq (alloc it).
Proof. intros s a s' E. now apply alloc_read_frame in E as [E _]. Qed.

#[export] Hint Resolve heap_frame_seq_eq heap_frame_read_frame eq_seq_eq eq_read_frame
  update_read_frame update_seq_eq alloc_read_frame alloc_seq_eq RoI_rw_seq_eq RoI_w_seq_eq
  ReplaceOrInsert_rw_read_frame Delete_rw_read_frame Delete_rw_seq_eq : frame.

Lemma setRead_read_frame p : Preserves read_frame (setRead p).
Proof.
  unfold setRead, SetQueuePos, SetSequence, curSequence. preserve; eauto with frame.
Qed.

Lemma step_after {A B} (m : M A) (k : A -> M B) :
  Preserves seq_eq m -> (forall a, Preserves seq_step (k a)) -> Preserves seq_step (bind m k).
Proof.
  intros Hm Hk s b s'' E. apply bind_inv in E as (a & s1 & E1 & E2).
  apply Hm in E1. apply Hk in E2. unfold seq_eq, seq_step in *. congruence.
Qed.

Lemma step_before {A B} (m : M A) (k : A -> M B) :
  Preserves seq_step m -> (forall a, Preserves seq_eq (k a)) -> Preserves seq_step (bind m k).
Proof.
  intros Hm Hk s b s'' E. apply bind_inv in E as (a & s1 & E1 & E2).
  apply Hm in E1. apply Hk in E2. unfold seq_eq, seq_step in *. congruence.
Qed.

Lemma bumpSequence_step p : Preserves seq_step (bumpSequence p).
Proof. intros s a s' E. now apply bumpSequence_spec in E as (_ & _ & _ & E & _). Qed.

Lemma newWriteItem_step b f : Preserves seq_step (newWriteItem b f).
Proof. intros s a s' E. now apply newWriteItem_spec in E as (_ & _ & E & _). Qed.

Lemma checkWriteBudget_seq_eq : Preserves seq_eq checkWriteBudget.
Proof. unfold checkWriteBudget. preserve. Qed.

#[export] Hint Resolve checkWriteBudget_seq_eq moveToWriteQueue_heap_frame : frame.

(** The step that advances the counter, then steps that keep it. *)
Ltac advance :=
  repeat match goal with
  | |- Preserves seq_step (match ?x with _ => _ end) => destruct x
  | |- Preserves seq_step (bind (bumpSequence _) _) =>
      apply step_before; [apply bumpSequence_step | intro; unfold SetFlagsTo; preserve]
  | |- Preserves seq_step (bind (newWriteItem _ _) _) =>
      apply step_before; [apply newWriteItem_step | intro; preserve]
  | |- Preserves seq_step (bind _ _) =>
      apply step_after; [unfold setAccountValue, setStorageValue, asStorage, setCodeValue, SetBody;
                         preserve | intro]
  end.

(** [sc.sequence++] adds one as long as the counter is below [MaxInt64]. *)
Lemma int64_wrap_succ z : -2^63 <= z < 2^63 - 1 -> int64_wrap (z + 1) = z + 1.
Proof.
  intro H. unfold int64_wrap. rewrite Z.mod_small; [ring | lia].
Qed.

(** Every write or delete that returns has advanced [sc.sequence] by
    exactly one, on each of its three paths, while the counter is below
    [MaxInt64] (Go's [int] wraps around there). *)
Theorem writes_advance_sequence s s' address incarnation location account value code :
  -2^63 <= scSequence s < 2^63 - 1 ->
  (SetAccountWrite address account s = Some (tt, s') -> scSequence s' = scSequence s + 1) /\
  (SetAccountDelete address s = Some (tt, s') -> scSequence s' = scSequence s + 1) /\
  (SetStorageWrite address incarnation location value s = Some (tt, s') ->
     scSequence s' = scSequence s + 1) /\
  (SetStorageDelete address incarnation location s = Some (tt, s') ->
     scSequence s' = scSequence s + 1) /\
  (SetCodeWrite address code s = Some (tt, s') -> scSequence s' = scSequence s + 1) /\
  (SetCodeDelete address s = Some (tt, s') -> scSequence s' = scSequence s + 1).
Proof.
  assert (H1 : Preserves seq_step (SetAccountWrite address account))
    by (unfold SetAccountWrite; cbv zeta; advance).
  assert (H2 : Preserves seq_step (SetAccountDelete address))
    by (unfold SetAccountDelete; cbv zeta; advance).
  assert (H3 : Preserves seq_step (SetStorageWrite address incarnation location value))
    by (unfold SetStorageWrite; cbv zeta; advance).
  assert (H4 : Preserves seq_step (SetStorageDelete address incarnation location))
    by (unfold SetStorageDelete; cbv zeta; advance).
  assert (H5 : Preserves seq_step (SetCodeWrite address code))
    by (unfold SetCodeWrite; cbv zeta; advance).
  assert (H6 : Preserves seq_step (SetCodeDelete address))
    by (unfold SetCodeDelete; cbv zeta; advance).
  intro Hs. rewrite <- (int64_wrap_succ _ Hs).
  repeat split; intro E; [apply (H1 _ _ _ E) | apply (H2 _ _ _ E) | apply (H3 _ _ _ E)
                         | apply (H4 _ _ _ E) | apply (H5 _ _ _ E) | apply (H6 _ _ _ E)].
Qed.

(** Every read insertion that returns has left [sc.sequence] and the
    [writes] tree as they were. *)
Theorem reads_keep_sequence_and_writes s s' address incarnation location account value code :
  (SetAccountRead address account s = Some (tt, s') -> read_frame s s') /\
  (SetAccountAbsent address s = Some (tt, s') -> read_frame s s') /\
  (SetStorageRead address incarnation location value s = Some (tt, s') -> read_frame s s') /\
  (SetStorageAbsent address incarnation location s = Some (tt, s') -> read_frame s s') /\
  (SetCodeRead address code s = Some (tt, s') -> read_frame s s') /\
  (SetCodeAbsent address s = Some (tt, s') -> read_frame s s').
Proof.
  assert (H : forall it, Preserves read_frame (x <- alloc it ;; setRead x))
    by (intro; apply Preserves_bind; [apply alloc_read_frame | apply setRead_read_frame]).
  refine (conj _ (conj _ (conj _ (conj _ (conj _ _))))); intro E; eapply H; exact E.
Qed.

(** ** Flags *)

Lemma HasFlag_flags it it' g : flags it' = flags it -> HasFlag it' g = HasFlag it g.
Proof. unfold HasFlag. now intros ->. Qed.

Lemma land_lnot_disjoint f g : Z.land f g = 0 -> Z.land (Z.lnot f) g = g.
Proof.
  intro H. apply Z.bits_inj'. intros n Hn.
  pose proof (f_equal (fun x => Z.testbit x n) H) as Hb. cbv beta in Hb.
  rewrite Z.land_spec, Z.bits_0 in Hb.
  rewrite Z.land_spec, Z.lnot_spec by exact Hn.
  destruct (Z.testbit f n), (Z.testbit g n); auto.
Qed.

Lemma land_lnot_covered f g : Z.land f g = g -> Z.land (Z.lnot f) g = 0.
Proof.
  intro H. apply Z.bits_inj'. intros n Hn.
  pose proof (f_equal (fun x => Z.testbit x n) H) as Hb. cbv beta in Hb.
  rewrite Z.land_spec in Hb.
  rewrite Z.land_spec, Z.lnot_spec, Z.bits_0 by exact Hn.
  destruct (Z.testbit f n), (Z.testbit g n); auto.
Qed.

(** The interface comments of [SetFlags] and [ClearFlags]: [SetFlags f]
    sets the flags of [f] and leaves the other flags alone; [ClearFlags f]
    clears the flags of [f] and leaves the other flags alone. *)
Theorem set_clear_flags s p it f g u s' :
  nth_error (store s) p = Some it ->
  (SetFlags p f s = Some (u, s') ->
     exists it', nth_error (store s') p = Some it' /\ body it' = body it /\
       HasFlag it' g = HasFlag it g || negb (Z.land f g =? 0)) /\
  (ClearFlags p f s = Some (u, s') ->
     exists it', nth_error (store s') p = Some it' /\ body it' = body it /\
       (Z.land f g = 0 -> HasFlag it' g = HasFlag it g) /\
       (Z.land f g = g -> HasFlag it' g = false)).
Proof.
  intro Hp. split; intro E; apply update_spec in E as [it0 [Hp0 ->]];
    rewrite Hp in Hp0; inversion Hp0; subst it0; cbn;
    eexists; (split; [eapply nth_replace_same; eauto|]); cbn; unfold HasFlag; cbn.
  - split; [reflexivity|].
    rewrite Z.land_lor_distr_l.
    destruct (Z.eqb_spec (Z.land (flags it) g) 0) as [E1|E1],
      (Z.eqb_spec (Z.land f g) 0) as [E2|E2]; simpl.
    + rewrite E1, E2. reflexivity.
    + destruct (Z.eqb_spec (Z.lor (Z.land (flags it) g) (Z.land f g)) 0) as [E3|E3]; auto.
      apply Z.lor_eq_0_iff in E3. tauto.
    + destruct (Z.eqb_spec (Z.lor (Z.land (flags it) g) (Z.land f g)) 0) as [E3|E3]; auto.
      apply Z.lor_eq_0_iff in E3. tauto.
    + destruct (Z.eqb_spec (Z.lor (Z.land (flags it) g) (Z.land f g)) 0) as [E3|E3]; auto.
      apply Z.lor_eq_0_iff in E3. tauto.
  - split; [reflexivity|]. rewrite <- Z.land_assoc. split; intro H.
    + now rewrite (land_lnot_disjoint f g H).
    + now rewrite (land_lnot_covered f g H), Z.land_0_r.
Qed.

(** ** TurnWritesToReads *)

Lemma slot_frame_refl s : slot_frame s s.
Proof. unfold slot_frame. repeat split; auto using heap_frame_refl. Qed.
Lemma slot_frame_trans s1 s2 s3 : slot_frame s1 s2 -> slot_frame s2 s3 -> slot_frame s1 s3.
Proof.
  unfold slot_frame. intros (H1 & A1 & B1 & C1) (H2 & A2 & B2 & C2).
  split; [eapply heap_frame_trans; eauto | repeat split; congruence].
Qed.
#[export] Instance slot_frame_rel : FrameRel slot_frame :=
  {| fr_refl := slot_frame_refl; fr_trans := slot_frame_trans |}.

Lemma replace_nth_length {A} (l : list A) n x : length (replace_nth l n x) = length l.
Proof. revert n; induction l; intros [|n]; simpl; auto. Qed.

Lemma eq_slot_frame {A} (m : M A) : Preserves eq m -> Preserves slot_frame m.
Proof. intros H s a s' E. apply H in E. subst. apply slot_frame_refl. Qed.

Lemma SetQueuePos_slot_frame p v : Preserves slot_frame (SetQueuePos p v).
Proof.
  intros s a s' E. pose proof (SetQueuePos_heap_frame p v s a s' E) as H.
  apply update_spec in E as [it [_ ->]]. repeat split; apply H.
Qed.

Lemma heap_set_slot_frame i x : Preserves slot_frame (heap_set i x).
Proof.
  intros s a s'. unfold heap_set, slice_set, bind, getS, putS, ret, panic. cbn.
  destruct ((i <? 0) || (Z.of_nat (length (heapItems s)) <=? i));
    [intro Hc; discriminate Hc|].
  intro H; inversion H; subst. unfold slot_frame, heap_frame; cbn.
  repeat split. apply replace_nth_length.
Qed.

Lemma heap_get_slot_frame i : Preserves slot_frame (heap_get i).
Proof. apply eq_slot_frame, heap_get_pure. Qed.
Lemma deref_slot_frame p : Preserves slot_frame (deref p).
Proof. apply eq_slot_frame, deref_eq. Qed.

Lemma nonnil_slot_frame o : Preserves slot_frame (nonnil o).
Proof. apply Preserves_lift. Qed.

#[export] Hint Resolve SetQueuePos_slot_frame heap_set_slot_frame heap_get_slot_frame
  deref_slot_frame nonnil_slot_frame : frame.

Lemma GetSequence_slot_frame p : Preserves slot_frame (GetSequence p).
Proof. unfold GetSequence. preserve. Qed.
#[export] Hint Resolve GetSequence_slot_frame : frame.

Lemma ReadHeap_Less_slot_frame i j : Preserves slot_frame (ReadHeap_Less i j).
Proof. unfold ReadHeap_Less. preserve. Qed.
Lemma ReadHeap_Swap_slot_frame i j : Preserves slot_frame (ReadHeap_Swap i j).
Proof. unfold ReadHeap_Swap. preserve. Qed.
Lemma ReadHeap_Len_slot_frame : Preserves slot_frame ReadHeap_Len.
Proof. unfold ReadHeap_Len. preserve. Qed.

(** [heap.Init] only calls [Len], [Less] and [Swap]. *)
Section SwapOnly.
Variable h : HeapInterface.
Hypothesis h_len : Preserves slot_frame (hLen h).
Hypothesis h_less : forall i j, Preserves slot_frame (hLess h i j).
Hypothesis h_swap : forall i j, Preserves slot_frame (hSwap h i j).
#[local] Hint Resolve h_len h_less h_swap : frame.

Lemma down_loop_slot_frame fuel i n : Preserves slot_frame (down_loop h fuel i n).
Proof. revert i; induction fuel; intro i; simpl; preserve. Qed.
#[local] Hint Resolve down_loop_slot_frame : frame.

Lemma init_loop_slot_frame k n : Preserves slot_frame (init_loop h k n).
Proof. induction k; simpl; unfold down; preserve. Qed.
#[local] Hint Resolve init_loop_slot_frame : frame.

Lemma heap_Init_slot_frame : Preserves slot_frame (heap_Init h).
Proof. unfold heap_Init. preserve. Qed.
End SwapOnly.

Lemma Init_readQueue_slot_frame : Preserves slot_frame (heap_Init readQueue).
Proof.
  apply heap_Init_slot_frame; simpl;
    auto using ReadHeap_Len_slot_frame, ReadHeap_Less_slot_frame, ReadHeap_Swap_slot_frame.
Qed.

Lemma nth_replace_other {A} (l : list A) n m y :
  m <> n -> nth_error (replace_nth l n y) m = nth_error l m.
Proof.
  revert n m; induction l as [|z l IH]; intros [|n] [|m]; simpl; intros; auto; try lia.
Qed.

Lemma clearModified_idem f : clearModified (clearModified f) = clearModified f.
Proof. unfold clearModified. now rewrite <- Z.land_assoc, Z.land_diag. Qed.

Section Commit.
Variable wl : Z.

(** The visitor of [TurnWritesToReads]. *)
Let visit (p : ptr) : M unit :=
  s <- getS ;; pos <- GetQueuePos p ;;
  SetQueuePos p (readEnd s + wl - pos) ;;; ClearFlags p ModifiedFlag.

Let same_fields (s s' : StateCache) : Prop :=
  readWrites s' = readWrites s /\ writes s' = writes s /\ scSequence s' = scSequence s /\
  heapItems s' = heapItems s /\ readEnd s' = readEnd s /\ writeStart s' = writeStart s.

Lemma visit_spec p s u s' :
  visit p s = Some (u, s') ->
  same_fields s s' /\
  forall q it, nth_error (store s) q = Some it ->
    exists it', nth_error (store s') q = Some it' /\ body it' = body it /\
      flags it' = if Nat.eqb q p then clearModified (flags it) else flags it.
Proof.
  unfold visit. intro H.
  apply bind_inv in H as (s0 & s1 & E0 & H). unfold getS in E0. inversion E0; subst s0 s1.
  apply bind_inv in H as (pos & s1 & E1 & H).
  unfold GetQueuePos in E1. apply bind_inv in E1 as (itp & s2 & E2 & E1).
  apply deref_spec in E2 as [-> Hp]. unfold ret in E1. inversion E1; subst pos s1.
  apply bind_inv in H as (u2 & s2 & E2 & H).
  apply update_spec in E2 as [it2 [Hp2 ->]]. rewrite Hp in Hp2. inversion Hp2; subst it2.
  apply update_spec in H as [it3 [Hp3 ->]]. cbn in Hp3.
  rewrite (nth_replace_same _ _ _ _ Hp) in Hp3. inversion Hp3; subst it3.
  split; [repeat split|]. intros q it Hq. cbn.
  destruct (Nat.eqb_spec q p) as [->|Hne].
  - rewrite Hq in Hp. inversion Hp; subst itp.
    eexists; split; [eapply nth_replace_same, nth_replace_same; eauto | split; reflexivity].
  - rewrite !nth_replace_other by exact Hne. eauto.
Qed.

Lemma ascend_spec l s s' :
  ascend l visit s = Some (tt, s') ->
  same_fields s s' /\
  forall q it, nth_error (store s) q = Some it ->
    exists it', nth_error (store s') q = Some it' /\ body it' = body it /\
      (In q l -> flags it' = clearModified (flags it)) /\ (~ In q l -> flags it' = flags it).
Proof.
  revert s. induction l as [|p l IH]; intros s H; simpl in H.
  - inversion H; subst. split; [repeat split|]. intros q it Hq. exists it.
    repeat split; auto. intros [].
  - apply bind_inv in H as (u & s1 & E1 & H).
    apply visit_spec in E1 as [F1 H1]. apply IH in H as [F2 H2].
    split; [unfold same_fields in *; intuition congruence|].
    intros q it Hq.
    destruct (H1 q it Hq) as (it1 & Hq1 & Hb1 & Hf1).
    destruct (H2 q it1 Hq1) as (it' & Hq' & Hb' & Hin & Hout).
    exists it'. split; [exact Hq'|]. split; [congruence|].
    destruct (Nat.eqb_spec q p) as [->|Hne].
    + split; intro Hi.
      * destruct (in_dec Nat.eq_dec p l) as [Hl|Hl].
        -- rewrite (Hin Hl), Hf1. apply clearModified_idem.
        -- rewrite (Hout Hl). exact Hf1.
      * exfalso. apply Hi. left. reflexivity.
    + split; intro Hi.
      * destruct Hi as [Hi|Hi]; [congruence|]. rewrite (Hin Hi), Hf1. reflexivity.
      * rewrite Hout, Hf1; [reflexivity|]. intro Hl. apply Hi. right. exact Hl.
Qed.
End Commit.

(** [copy] within one slice keeps its length. *)
Lemma copy_within_spec h e st s h' s' :
  copy_within h e st s = Some (h', s') -> s' = s /\ length h' = length h.
Proof.
  unfold copy_within, panic, ret.
  destruct ((e <? 0) || (Z.of_nat (length h) <? e) || (st <? 0) || (Z.of_nat (length h) <? st))
    eqn:C; [discriminate|].
  intro E. inversion E; subst. split; [reflexivity|].
  rewrite !orb_false_iff in C. destruct C as [[[C1 C2] C3] C4].
  rewrite Z.ltb_ge in C1, C2, C3, C4.
  rewrite !length_app, !length_firstn, !length_skipn.
  lia.
Qed.

Lemma HasFlag_clearModified it it' :
  flags it' = clearModified (flags it) ->
  HasFlag it' DeletedFlag = HasFlag it DeletedFlag /\ HasFlag it' ModifiedFlag = false.
Proof.
  unfold HasFlag, clearModified. intros ->. rewrite <- !Z.land_assoc.
  rewrite (land_lnot_disjoint ModifiedFlag DeletedFlag) by reflexivity.
  rewrite (land_lnot_covered ModifiedFlag ModifiedFlag) by reflexivity.
  rewrite Z.land_0_r. split; reflexivity.
Qed.

(** [TurnWritesToReads], when it returns: the write queue is empty
    ([writeStart = len(items)]), the read queue has grown by the number of
    write entries, every item visited in [writes] has lost [ModifiedFlag]
    but kept [DeletedFlag] and its value, the other items are untouched,
    and the two trees and [sc.sequence] are as before. *)
Theorem turn_writes_to_reads_effect s s' :
  TurnWritesToReads s = Some (tt, s') ->
  readWrites s' = readWrites s /\ writes s' = writes s /\ scSequence s' = scSequence s /\
  heapLen s' = heapLen s /\ writeStart s' = heapLen s /\
  readEnd s' = readEnd s + (heapLen s - writeStart s) /\
  forall q it, nth_error (store s) q = Some it ->
    exists it', nth_error (store s') q = Some it' /\ body it' = body it /\
      HasFlag it' DeletedFlag = HasFlag it DeletedFlag /\
      (In q (writes s) -> HasFlag it' ModifiedFlag = false) /\
      (~ In q (writes s) -> flags it' = flags it).
Proof.
  unfold TurnWritesToReads. intro H.
  apply bind_inv in H as (wl & s0 & E0 & H).
  unfold hLen, writeQueue, WriteHeap_Len, bind, getS, ret in E0. cbn in E0.
  inversion E0; subst wl s0. cbv zeta in H.
  apply bind_inv in H as (s0 & s1 & E1 & H). unfold getS in E1. inversion E1; subst s0 s1. clear E1.
  apply bind_inv in H as (u & s1 & E1 & H). destruct u.
  apply ascend_spec in E1 as [(F1 & F2 & F3 & F4 & F5 & F6) Hitems].
  apply bind_inv in H as (s2 & s3 & E2 & H). unfold getS in E2. inversion E2; subst s2 s3. clear E2.
  apply bind_inv in H as (h & s2 & E2 & H). apply copy_within_spec in E2 as [-> Hlen].
  apply bind_inv in H as (u & s2 & E2 & H). unfold putS in E2. inversion E2; subst s2. clear E2.
  apply bind_inv in H as (s2 & s3 & E2 & H). unfold getS in E2. inversion E2; subst s2 s3. clear E2.
  apply bind_inv in H as (u2 & s2 & E2 & H). unfold putS in E2. inversion E2; subst s2. clear E2.
  apply bind_inv in H as (s2 & s3 & E2 & H). unfold getS in E2. inversion E2; subst s2 s3. clear E2.
  apply bind_inv in H as (u3 & s2 & E2 & H). unfold putS in E2. inversion E2; subst s2. clear E2.
  apply Init_readQueue_slot_frame in H as ((Hst & G1 & G2 & _ & _ & G3) & G4 & G5 & G6).
  cbn in *. unfold heapLen in *. cbn in *.
  repeat split; try congruence.
  intros q it Hq.
  destruct (Hitems q it Hq) as (it1 & Hq1 & Hb1 & Hin & Hout).
  destruct (strip_nth _ _ _ _ Hst Hq1) as (it' & Hq' & Hb' & Hf').
  exists it'. split; [exact Hq'|]. split; [congruence|].
  destruct (in_dec Nat.eq_dec q (writes s)) as [Hi|Hi].
  - destruct (HasFlag_clearModified it it') as [D Mo]; [rewrite Hf'; auto|].
    split; [exact D|]. split; [intros _; exact Mo | intro Hc; contradiction].
  - split; [apply HasFlag_flags; rewrite Hf'; auto|].
    split; [intro Hc; contradiction | intros _; rewrite Hf'; auto].
Qed.

(** ** Writes of cached keys leave the trees alone *)

Lemma cached_branch_trees (v tail : M unit) p F s s' :
  Preserves heap_frame tail ->
  (forall s u s1, v s = Some (u, s1) -> readWrites s1 = readWrites s /\ writes s1 = writes s) ->
  (v ;;; bumpSequence p ;;; SetFlagsTo p F ;;; tail) s = Some (tt, s') ->
  readWrites s' = readWrites s /\ writes s' = writes s.
Proof.
  intros Ht Hv H. apply cached_branch in H as (u & s1 & Ev & Hrw & Hw & _); [|exact Ht].
  apply Hv in Ev as [Hrw1 Hw1]. split; congruence.
Qed.

Ltac cached_trees spec :=
  match goal with
  | H : _ \/ _ |- _ =>
      destruct H as [H|H]; (eapply cached_branch_trees; [ | | exact H ]);
      [ apply fixWriteQueue_heap_frame
      | intros ? ? ? E; apply spec in E; intuition
      | apply moveToWriteQueue_heap_frame
      | intros ? ? ? E; apply spec in E; intuition ]
  end.

Lemma asStorage_trees p s u s1 :
  asStorage p s = Some (u, s1) -> readWrites s1 = readWrites s /\ writes s1 = writes s.
Proof. intro E. apply asStorage_spec in E as [-> _]. split; reflexivity. Qed.

(** An account already in [readWrites] (and, if in [writes], under the
    same entry): [SetAccountWrite] and [SetAccountDelete] leave both
    B-trees as they were. *)
Theorem account_cached_write_keeps_trees s s' address account p :
  lookup s (accountKey address) = Some (Some p) ->
  (forall q, lookupWrites s (accountKey address) = Some (Some q) -> q = p) ->
  (SetAccountWrite address account s = Some (tt, s') ->
     readWrites s' = readWrites s /\ writes s' = writes s) /\
  (SetAccountDelete address s = Some (tt, s') ->
     readWrites s' = readWrites s /\ writes s' = writes s).
Proof.
  intros Hl Hw. split; intro H;
    [unfold SetAccountWrite in H | unfold SetAccountDelete in H]; cbv zeta in H;
    apply (write_dispatch _ _ _ _ s p s' Hl Hw) in H; cached_trees setAccountValue_spec.
Qed.

(** The same for a storage slot and [SetStorageWrite], [SetStorageDelete]. *)
Theorem storage_cached_write_keeps_trees s s' address incarnation location value p :
  lookup s (storageKey address incarnation location) = Some (Some p) ->
  (forall q, lookupWrites s (storageKey address incarnation location) = Some (Some q) -> q = p) ->
  (SetStorageWrite address incarnation location value s = Some (tt, s') ->
     readWrites s' = readWrites s /\ writes s' = writes s) /\
  (SetStorageDelete address incarnation location s = Some (tt, s') ->
     readWrites s' = readWrites s /\ writes s' = writes s).
Proof.
  intros Hl Hw. split; intro H;
    [unfold SetStorageWrite in H | unfold SetStorageDelete in H]; cbv zeta in H;
    apply (write_dispatch _ _ _ _ s p s' Hl Hw) in H;
    [cached_trees setStorageValue_spec | cached_trees asStorage_trees].
Qed.

(** The same for the code of an address and [SetCodeWrite], [SetCodeDelete]. *)
Theorem code_cached_write_keeps_trees s s' address code p :
  lookup s (codeKey address) = Some (Some p) ->
  (forall q, lookupWrites s (codeKey address) = Some (Some q) -> q = p) ->
  (SetCodeWrite address code s = Some (tt, s') ->
     readWrites s' = readWrites s /\ writes s' = writes s) /\
  (SetCodeDelete address s = Some (tt, s') ->
     readWrites s' = readWrites s /\ writes s' = writes s).
Proof.
  intros Hl Hw. split; intro H;
    [unfold SetCodeWrite in H | unfold SetCodeDelete in H]; cbv zeta in H;
    apply (write_dispatch _ _ _ _ s p s' Hl Hw) in H; cached_trees setCodeValue_spec.
Qed.

(** ** A new cache *)

(** [NewStateCache] panics when [btree.New] rejects the degree ([degree <= 1])
    or when [make] rejects the length: a sum [limitReads + limitWrites] (that
    does not overflow) below zero or above the allocation bound. Otherwise
    the slice has [limitReads + limitWrites] nil slots, both queues are
    empty, the counter is zero, and every lookup misses. *)
Theorem new_state_cache_empty degree limitReads limitWrites :
  (degree <= 1 -> NewStateCache degree limitReads limitWrites = None) /\
  (-2^63 <= limitReads + limitWrites < 2^63 ->
   limitReads + limitWrites < 0 \/ maxCacheItemSliceLen < limitReads + limitWrites ->
   NewStateCache degree limitReads limitWrites = None) /\
  (1 < degree -> 0 <= limitReads + limitWrites <= maxCacheItemSliceLen ->
   exists s, NewStateCache degree limitReads limitWrites = Some s /\
     heapLen s = limitReads + limitWrites /\ readEnd s = 0 /\
     writeStart s = limitReads + limitWrites /\ scSequence s = 0 /\
     forall address incarnation location,
       GetAccount address s = Some ((None, false), s) /\
       GetStorage address incarnation location s = Some ((None, false), s) /\
       GetCode address s = Some ((None, true), s)).
Proof.
  unfold NewStateCache, maxCacheItemSliceLen. refine (conj _ (conj _ _)).
  - intro H. apply Z.leb_le in H. now rewrite H.
  - intros Hr Hc. destruct (degree <=? 1); [reflexivity|].
    assert (E : int64_wrap (limitReads + limitWrites) = limitReads + limitWrites)
      by (unfold int64_wrap; rewrite Z.mod_small; [ring | lia]).
    rewrite E. destruct Hc as [Hc|Hc]; apply Z.ltb_lt in Hc; rewrite Hc;
      [reflexivity | now rewrite orb_true_r].
  - intros Hd Hn. rewrite (proj2 (Z.leb_gt _ _) Hd).
    assert (E : int64_wrap (limitReads + limitWrites) = limitReads + limitWrites)
      by (unfold int64_wrap; rewrite Z.mod_small; [ring | lia]).
    rewrite E, (proj2 (Z.ltb_ge _ _) (proj1 Hn)), (proj2 (Z.ltb_ge _ _) (proj2 Hn)).
    eexists; split; [reflexivity|].
    unfold heapLen. cbn. rewrite repeat_length, Z2Nat.id by apply Hn.
    repeat split.
Qed.

(** ** CopyValueFrom *)

(** [CopyValueFrom] copies the value, not the key: the receiver keeps its
    address and takes the account of the argument; an argument that is
    not an account item panics. *)
Theorem copy_value_from_spec s aci item other :
  nth_error (store s) item = Some other ->
  (forall u s', CopyValueFrom aci item s = Some (u, s') ->
     exists it it' a, nth_error (store s) aci = Some it /\ nth_error (store s') aci = Some it' /\
       body other = AccountBody (addressOf (body other)) a /\
       body it' = AccountBody (addressOf (body it)) a /\ keyOf (body it') = keyOf (body it) /\
       sequence it' = sequence it /\ queuePos it' = queuePos it /\ flags it' = flags it) /\
  ((forall addr a, body other <> AccountBody addr a) -> CopyValueFrom aci item s = None).
Proof.
  intro Ho. split.
  - intros u s' H. unfold CopyValueFrom in H.
    apply bind_inv in H as (o & s1 & E1 & H). apply deref_spec in E1 as [-> E1].
    rewrite Ho in E1. inversion E1; subst o.
    destruct (body other) as [oaddr a| |] eqn:Hb; try discriminate.
    apply bind_inv in H as (it & s1 & E2 & H). apply deref_spec in E2 as [-> E2].
    destruct (body it) as [addr a0| |] eqn:Hbi; try discriminate.
    apply update_spec in H as [it0 [Hp0 ->]]. rewrite E2 in Hp0. inversion Hp0; subst it0.
    exists it, (mkItem (AccountBody addr a) (sequence it) (queuePos it) (flags it)), a.
    cbn. rewrite Hbi. repeat split; auto. eapply nth_replace_same; eauto.
  - intro Hn. unfold CopyValueFrom, deref, bind, getS, lift. cbn. rewrite Ho.
    destruct (body other) as [oaddr a| |]; auto. exfalso. eapply Hn. reflexivity.
Qed.

(** ** The read queue bound *)

Section SwapOnlyFix.
Variable h : HeapInterface.
Hypothesis h_len : Preserves slot_frame (hLen h).
Hypothesis h_less : forall i j, Preserves slot_frame (hLess h i j).
Hypothesis h_swap : forall i j, Preserves slot_frame (hSwap h i j).
#[local] Hint Resolve h_len h_less h_swap down_loop_slot_frame : frame.

Lemma up_loop_slot_frame fuel j : Preserves slot_frame (up_loop h fuel j).
Proof. revert j; induction fuel; intro j; simpl; preserve. Qed.
#[local] Hint Resolve up_loop_slot_frame : frame.

Lemma heap_Fix_slot_frame i : Preserves slot_frame (heap_Fix h i).
Proof. unfold heap_Fix, down, up. preserve. Qed.

Lemma up_slot_frame j : Preserves slot_frame (up h j).
Proof. unfold up. preserve. Qed.
End SwapOnlyFix.

Lemma bounds_eq_refl s : bounds_eq s s.
Proof. unfold bounds_eq. repeat split. Qed.
Lemma bounds_eq_trans s1 s2 s3 : bounds_eq s1 s2 -> bounds_eq s2 s3 -> bounds_eq s1 s3.
Proof. unfold bounds_eq. intuition congruence. Qed.
#[export] Instance bounds_eq_rel : FrameRel bounds_eq :=
  {| fr_refl := bounds_eq_refl; fr_trans := bounds_eq_trans |}.

Lemma slot_bounds {A} (m : M A) : Preserves slot_frame m -> Preserves bounds_eq m.
Proof.
  intros H s a s' E. apply H in E as ((_ & _ & _ & L1 & L2 & _) & R & W & Len).
  repeat split; auto.
Qed.
Lemma eq_bounds {A} (m : M A) : Preserves eq m -> Preserves bounds_eq m.
Proof. intros H s a s' E. apply H in E. subst. apply bounds_eq_refl. Qed.
Lemma update_bounds p f : Preserves bounds_eq (update p f).
Proof. intros s a s' E. apply update_spec in E as [it [_ ->]]. repeat split. Qed.
Lemma alloc_bounds it : Preserves bounds_eq (alloc it).
Proof. intros s a s' E. unfold alloc, bind, getS, putS, ret in E. inversion E; subst. repeat split. Qed.
Lemma RoI_rw_bounds p : Preserves bounds_eq (BTree_ReplaceOrInsert readWritesTree p).
Proof. intros s a s' E. apply ReplaceOrInsert_spec in E as (it & t' & _ & _ & ->). repeat split. Qed.
Lemma Delete_rw_bounds x : Preserves bounds_eq (BTree_Delete readWritesTree x).
Proof.
  intros s a s'. unfold BTree_Delete, bind, getS, ret. cbn.
  destruct (readWrites s) as [|q t].
  - intro E. inversion E; subst. apply bounds_eq_refl.
  - unfold nonnil, lift. destruct x as [p|]; [|discriminate].
    unfold deref, bind, getS, lift. cbn.
    destruct (nth_error (store s) p); [|discriminate].
    destruct (bt_remove _ _ _); intro E; inversion E; subst. repeat split.
Qed.
Lemma heap_set_bounds i x : Preserves bounds_eq (heap_set i x).
Proof. apply slot_bounds, heap_set_slot_frame. Qed.
Lemma Fix_read_bounds i : Preserves bounds_eq (heap_Fix readQueue i).
Proof.
  apply slot_bounds, heap_Fix_slot_frame; simpl;
    auto using ReadHeap_Len_slot_frame, ReadHeap_Less_slot_frame, ReadHeap_Swap_slot_frame.
Qed.

#[export] Hint Resolve eq_bounds update_bounds alloc_bounds RoI_rw_bounds Delete_rw_bounds
  heap_set_bounds Fix_read_bounds : frame.

Lemma push_read_bounds x s u s' :
  heap_Push readQueue x s = Some (u, s') ->
  readEnd s' = readEnd s + 1 /\ writeStart s' = writeStart s /\
  length (heapItems s') = length (heapItems s) /\
  limitReads s' = limitReads s /\ limitWrites s' = limitWrites s.
Proof.
  unfold heap_Push. intro H. simpl in H.
  apply bind_inv in H as (u1 & s1 & E1 & H).
  apply bind_inv in H as (n & s2 & E2 & H).
  unfold ReadHeap_Len, bind, getS, ret in E2. inversion E2; subst n s2. clear E2.
  assert (U : Preserves bounds_eq (up readQueue (readEnd s1 - 1))).
  { apply slot_bounds, up_slot_frame; simpl;
      auto using ReadHeap_Len_slot_frame, ReadHeap_Less_slot_frame, ReadHeap_Swap_slot_frame. }
  apply U in H as (R & W & L & L1 & L2). clear U.
  unfold ReadHeap_Push in E1.
  apply bind_inv in E1 as (s0 & s2 & E0 & E1). unfold getS in E0. inversion E0; subst s0 s2. clear E0.
  apply bind_inv in E1 as (u2 & s2 & E2 & E1).
  apply heap_set_bounds in E2 as (R2 & W2 & Len2 & L12 & L22).
  unfold bind, getS, putS in E1. inversion E1; subst s1. cbn in *.
  repeat split; congruence.
Qed.


(** ** Instances of the properties above on sample states *)

Lemma lookups_read_only_witness :
  exists r, GetAccount addr1 readAccCache = Some (r, readAccCache).
Proof.
  destruct (GetAccount addr1 readAccCache) as [[r s']|] eqn:E;
    [| vm_compute in E; discriminate].
  exists r. rewrite (proj1 (lookups_read_only readAccCache addr1 1 loc1) r s' E). reflexivity.
Defined.

Lemma account_read_of_cached_key_panics_witness :
  lookup readAccCache (accountKey addr1) = Some (Some 0%nat) /\
  SetAccountRead addr1 accA' readAccCache = None /\ SetAccountAbsent addr1 readAccCache = None.
Proof.
  assert (H : lookup readAccCache (accountKey addr1) = Some (Some 0%nat)) by (vm_compute; reflexivity).
  split; [exact H | exact (account_read_of_cached_key_panics readAccCache addr1 accA' 0%nat H)].
Defined.

Lemma storage_read_of_cached_key_panics_witness :
  lookup readStoCache (storageKey addr1 1 loc1) = Some (Some 0%nat) /\
  SetStorageRead addr1 1 loc1 zeroHash readStoCache = None /\
  SetStorageAbsent addr1 1 loc1 readStoCache = None.
Proof.
  assert (H : lookup readStoCache (storageKey addr1 1 loc1) = Some (Some 0%nat))
    by (vm_compute; reflexivity).
  split; [exact H | exact (storage_read_of_cached_key_panics readStoCache addr1 1 loc1 zeroHash 0%nat H)].
Defined.

Lemma code_read_of_cached_key_panics_witness :
  lookup readCodeCache (codeKey addr1) = Some (Some 0%nat) /\
  SetCodeRead addr1 code1 readCodeCache = None /\ SetCodeAbsent addr1 readCodeCache = None.
Proof.
  assert (H : lookup readCodeCache (codeKey addr1) = Some (Some 0%nat)) by (vm_compute; reflexivity).
  split; [exact H | exact (code_read_of_cached_key_panics readCodeCache addr1 code1 0%nat H)].
Defined.

Lemma account_write_over_budget_panics_witness :
  limitWrites noWriteBudgetCache = 0 /\
  SetAccountWrite addr1 accA noWriteBudgetCache = None /\
  SetAccountDelete addr1 noWriteBudgetCache = None.
Proof.
  split; [reflexivity|].
  apply account_write_over_budget_panics;
    [vm_compute; reflexivity | vm_compute; reflexivity | vm_compute; discriminate].
Defined.

Lemma storage_write_over_budget_panics_witness :
  limitWrites noWriteBudgetCache = 0 /\
  SetStorageWrite addr1 1 loc1 val1 noWriteBudgetCache = None /\
  SetStorageDelete addr1 1 loc1 noWriteBudgetCache = None.
Proof.
  split; [reflexivity|].
  apply storage_write_over_budget_panics;
    [vm_compute; reflexivity | vm_compute; reflexivity | vm_compute; discriminate].
Defined.

Lemma code_write_over_budget_panics_witness :
  limitWrites noWriteBudgetCache = 0 /\
  SetCodeWrite addr1 code1 noWriteBudgetCache = None /\
  SetCodeDelete addr1 noWriteBudgetCache = None.
Proof.
  split; [reflexivity|].
  apply code_write_over_budget_panics;
    [vm_compute; reflexivity | vm_compute; reflexivity | vm_compute; discriminate].
Defined.

Lemma account_write_then_get_witness :
  GetAccount addr1 (cacheAfter (SetAccountWrite addr1 accA' writeAccCache)) =
  Some ((Some accA', true), cacheAfter (SetAccountWrite addr1 accA' writeAccCache)).
Proof.
  apply (account_write_then_get writeAccCache addr1 accA').
  - intros q Hq. vm_compute in Hq |- *. exact Hq.
  - vm_compute. reflexivity.
Defined.

Lemma account_delete_then_get_witness :
  GetAccount addr1 (cacheAfter (SetAccountDelete addr1 writeAccCache)) =
  Some ((None, false), cacheAfter (SetAccountDelete addr1 writeAccCache)).
Proof.
  apply (account_delete_then_get writeAccCache addr1).
  - intros q Hq. vm_compute in Hq |- *. exact Hq.
  - vm_compute. reflexivity.
Defined.

Lemma storage_cached_write_then_get_witness :
  GetStorage addr1 1 loc1 (cacheAfter (SetStorageWrite addr1 1 loc1 code1 readStoCache)) =
  Some ((Some (go_copy val1 code1), true),
        cacheAfter (SetStorageWrite addr1 1 loc1 code1 readStoCache)).
Proof.
  assert (H1 : lookup readStoCache (storageKey addr1 1 loc1) = Some (Some 0%nat))
    by (vm_compute; reflexivity).
  assert (H2 : nth_error (store readStoCache) 0 = Some (mkItem (StorageBody addr1 1 loc1 val1) 0 0 0))
    by (vm_compute; reflexivity).
  assert (H3 : forall q, lookupWrites readStoCache (storageKey addr1 1 loc1) = Some (Some q) ->
                         q = 0%nat)
    by (intros q Hq; vm_compute in Hq; discriminate).
  apply (proj1 (storage_cached_write_then_get readStoCache addr1 1 loc1 code1 0%nat
                  (mkItem (StorageBody addr1 1 loc1 val1) 0 0 0) addr1 1 loc1 val1
                  H1 H2 eq_refl H3)).
  vm_compute. reflexivity.
Defined.

Lemma code_cached_write_then_get_witness :
  GetCode addr1 (cacheAfter (SetCodeDelete addr1 readCodeCache)) =
  Some ((None, true), cacheAfter (SetCodeDelete addr1 readCodeCache)).
Proof.
  assert (H1 : lookup readCodeCache (codeKey addr1) = Some (Some 0%nat)) by (vm_compute; reflexivity).
  assert (H2 : forall q, lookupWrites readCodeCache (codeKey addr1) = Some (Some q) -> q = 0%nat)
    by (intros q Hq; vm_compute in Hq; discriminate).
  apply (proj2 (code_cached_write_then_get readCodeCache addr1 code1 0%nat H1 H2)).
  vm_compute. reflexivity.
Defined.

Lemma writes_advance_sequence_witness :
  scSequence (cacheAfter (SetStorageDelete addr1 1 loc1 readStoCache)) =
  scSequence readStoCache + 1.
Proof.
  assert (Hs : -2^63 <= scSequence readStoCache < 2^63 - 1) by (vm_compute; split; congruence).
  apply (proj1 (proj2 (proj2 (proj2
           (writes_advance_sequence readStoCache _ addr1 1 loc1 accA val1 code1 Hs))))).
  vm_compute. reflexivity.
Defined.

Lemma reads_keep_sequence_and_writes_witness :
  read_frame writeAccCache (cacheAfter (SetAccountRead addr2 accA' writeAccCache)).
Proof.
  apply (proj1 (reads_keep_sequence_and_writes writeAccCache _ addr2 1 loc1 accA' val1 code1)).
  vm_compute. reflexivity.
Defined.

Lemma set_clear_flags_witness :
  exists it', nth_error (store (cacheAfter (ClearFlags 0%nat ModifiedFlag writeAccCache))) 0%nat = Some it' /\
    HasFlag it' ModifiedFlag = false.
Proof.
  destruct (set_clear_flags writeAccCache 0%nat (mkItem (AccountBody addr1 accA) 0 0 ModifiedFlag)
              ModifiedFlag ModifiedFlag tt (cacheAfter (ClearFlags 0%nat ModifiedFlag writeAccCache)))
    as [_ HC]; [vm_compute; reflexivity|].
  destruct HC as (it' & H1 & _ & _ & H2); [vm_compute; reflexivity|].
  exists it'. split; [exact H1 | apply H2; reflexivity].
Defined.

Lemma turn_writes_to_reads_effect_witness :
  exists it', nth_error (store (cacheAfter (TurnWritesToReads writeAccCache))) 0%nat = Some it' /\
    HasFlag it' ModifiedFlag = false.
Proof.
  destruct (turn_writes_to_reads_effect writeAccCache (cacheAfter (TurnWritesToReads writeAccCache)))
    as (_ & _ & _ & _ & _ & _ & Hitems); [vm_compute; reflexivity|].
  destruct (Hitems 0%nat (mkItem (AccountBody addr1 accA) 0 0 ModifiedFlag))
    as (it' & H1 & _ & _ & H2 & _); [vm_compute; reflexivity|].
  exists it'. split; [exact H1 | apply H2; left; reflexivity].
Defined.

Lemma account_cached_write_keeps_trees_witness :
  readWrites (cacheAfter (SetAccountWrite addr1 accA' readAccCache)) = readWrites readAccCache /\
  writes (cacheAfter (SetAccountWrite addr1 accA' readAccCache)) = writes readAccCache.
Proof.
  assert (H1 : lookup readAccCache (accountKey addr1) = Some (Some 0%nat)) by (vm_compute; reflexivity).
  assert (H2 : forall q, lookupWrites readAccCache (accountKey addr1) = Some (Some q) -> q = 0%nat)
    by (intros q Hq; vm_compute in Hq; discriminate).
  apply (proj1 (account_cached_write_keeps_trees readAccCache _ addr1 accA' 0%nat H1 H2)).
  vm_compute. reflexivity.
Defined.

Lemma storage_cached_write_keeps_trees_witness :
  readWrites (cacheAfter (SetStorageDelete addr1 1 loc1 readStoCache)) = readWrites readStoCache /\
  writes (cacheAfter (SetStorageDelete addr1 1 loc1 readStoCache)) = writes readStoCache.
Proof.
  assert (H1 : lookup readStoCache (storageKey addr1 1 loc1) = Some (Some 0%nat))
    by (vm_compute; reflexivity).
  assert (H2 : forall q, lookupWrites readStoCache (storageKey addr1 1 loc1) = Some (Some q) ->
                         q = 0%nat)
    by (intros q Hq; vm_compute in Hq; discriminate).
  apply (proj2 (storage_cached_write_keeps_trees readStoCache _ addr1 1 loc1 val1 0%nat H1 H2)).
  vm_compute. reflexivity.
Defined.

Lemma code_cached_write_keeps_trees_witness :
  readWrites (cacheAfter (SetCodeWrite addr1 zeroHash readCodeCache)) = readWrites readCodeCache /\
  writes (cacheAfter (SetCodeWrite addr1 zeroHash readCodeCache)) = writes readCodeCache.
Proof.
  assert (H1 : lookup readCodeCache (codeKey addr1) = Some (Some 0%nat)) by (vm_compute; reflexivity).
  assert (H2 : forall q, lookupWrites readCodeCache (codeKey addr1) = Some (Some q) -> q = 0%nat)
    by (intros q Hq; vm_compute in Hq; discriminate).
  apply (proj1 (code_cached_write_keeps_trees readCodeCache _ addr1 zeroHash 0%nat H1 H2)).
  vm_compute. reflexivity.
Defined.

Lemma new_state_cache_empty_witness :
  NewStateCache 1 2 2 = None /\ NewStateCache 32 (-3) 1 = None /\
  exists s, NewStateCache 32 2 2 = Some s /\ GetCode addr1 s = Some ((None, true), s).
Proof.
  destruct (new_state_cache_empty 1 2 2) as [H1 _].
  destruct (new_state_cache_empty 32 (-3) 1) as [_ [H2 _]].
  destruct (new_state_cache_empty 32 2 2) as [_ [_ H3]].
  split; [apply H1; lia|]. split; [apply H2; [lia | left; lia]|].
  destruct H3 as (s & Hs & _ & _ & _ & _ & Hget); [lia | vm_compute; split; congruence |].
  exists s. split; [exact Hs | apply (proj2 (proj2 (Hget addr1 1%N loc1)))].
Defined.

Lemma copy_value_from_spec_witness :
  exists it', nth_error (store (cacheAfter (CopyValueFrom 0%nat 1%nat twoReadsCache))) 0%nat = Some it' /\
    body it' = AccountBody addr1 accA'.
Proof.
  destruct (copy_value_from_spec twoReadsCache 0%nat 1%nat (mkItem (AccountBody addr2 accA') 0 0 0))
    as [HC _]; [vm_compute; reflexivity|].
  destruct (HC tt (cacheAfter (CopyValueFrom 0%nat 1%nat twoReadsCache)))
    as (it & it' & a & H1 & H2 & H3 & H4 & _); [vm_compute; reflexivity|].
  exists it'. split; [exact H2|]. rewrite H4.
  vm_compute in H1, H3. injection H1 as <-. injection H3 as <-. reflexivity.
Defined.

